(** * MFixedPoint: fixed-point arithmetic on scaled native integers

    A shallow embedding of the two fixed-point classes of the repository,

      - [mn::MFixedPoint::FpS<BaseType, OverflowType, numFracBits_>]
        (include/MFixedPoint/FpS.hpp), whose scale is a template argument, and
      - [Fp::Fp32s] (src/include/FixedPoint-Fp32s.hpp), whose scale is a field,

    together with the properties their specification states.

    A value of a native integer type is modelled by the mathematical
    integer it denotes; every operation that C++ performs in a type of
    finite width is followed by the reduction into that type
    ([CInt.wrap]), written out.  A [double] is an IEEE-754 binary64 number
    of the Standard Library's [SpecFloat]. *)

From Stdlib Require Import ZArith NArith PArith QArith Qround Qabs Bool Lia.
From Stdlib Require Import Floats.SpecFloat.

Local Open Scope Z_scope.

(* ================================================================== *)
(** * Native integer types of the target *)
(* ================================================================== *)

Module CInt.

(** An integer type is its width and its signedness
    ([int16_t] is [16] bits, signed). *)
Record IntType : Set := mkInt { bits : positive ; is_signed : bool }.

Definition int8_t   := mkInt 8  true.
Definition int16_t  := mkInt 16 true.
Definition int32_t  := mkInt 32 true.
Definition int64_t  := mkInt 64 true.
Definition uint8_t  := mkInt 8  false.
Definition uint16_t := mkInt 16 false.
Definition uint32_t := mkInt 32 false.
Definition uint64_t := mkInt 64 false.

(** [2^bits], the number of values of the type. *)
Definition modulus (t : IntType) : Z := 2 ^ Z.pos (bits t).

(** [2^(bits-1)], the weight of the sign bit. *)
Definition half_modulus (t : IntType) : Z := 2 ^ (Z.pos (bits t) - 1).

Definition min_val (t : IntType) : Z :=
  if is_signed t then - half_modulus t else 0.

Definition max_val (t : IntType) : Z :=
  if is_signed t then half_modulus t - 1 else modulus t - 1.

(** [x] is a value of type [t]. *)
Definition in_range (t : IntType) (x : Z) : bool :=
  (min_val t <=? x) && (x <=? max_val t).

(** Reduction of an integer into the type: the value with the same low
    [bits] bits, read in two's complement when the type is signed.  This
    is what a conversion to [t] does, and what the target does when an
    operation in [t] overflows. *)
Definition wrap (t : IntType) (x : Z) : Z :=
  if is_signed t
  then (x + half_modulus t) mod modulus t - half_modulus t
  else x mod modulus t.

(** [(T)x] *)
Definition cast (t : IntType) (x : Z) : Z := wrap t x.

(** Integral promotion: an operand of a type narrower than [int] is
    converted to [int] (32 bits on the targets of the library) before any
    arithmetic, shift or comparison; the value does not change. *)
Definition promote (t : IntType) : IntType :=
  if (bits t <? 32)%positive then int32_t else t.

(** Arithmetic on two operands of type [t] (after promotion). *)
Definition add (t : IntType) (x y : Z) : Z := wrap t (x + y).
Definition sub (t : IntType) (x y : Z) : Z := wrap t (x - y).
Definition mul (t : IntType) (x y : Z) : Z := wrap t (x * y).
Definition neg (t : IntType) (x : Z) : Z := wrap t (- x).

(** Every value of [s] is a value of [t]: a conversion from [s] to [t]
    keeps the value. *)
Definition widens (s t : IntType) : bool :=
  in_range t (min_val s) && in_range t (max_val s).

(** [x << n]: the bits that leave the type are lost.  C++ defines the
    shifts for a count below the width of the (promoted) type only, which
    is where the library uses them (8 in 32 bits for [fp16], 16 in 32 and
    in 64 bits for [fp32]); [shl] and [shr] are the shifts of the denoted
    integer for every count. *)
Definition shl (t : IntType) (x : Z) (n : N) : Z :=
  wrap t (Z.shiftl x (Z.of_N n)).

(** [x >> n]: the sign bit is replicated for a signed type (arithmetic
    shift), zeros enter for an unsigned one; on the denoted integer both
    are [Z.shiftr]. *)
Definition shr (t : IntType) (x : Z) (n : N) : Z :=
  Z.shiftr x (Z.of_N n).

(** Shifts whose count is a run-time value.  C++ defines a shift for a
    count below the width of the promoted left operand only; for a larger
    count the shift instructions of x86 use the count modulo the width
    (its low five bits for a 32-bit operand), and so do [shl_masked] and
    [shr_masked]. *)
Definition shift_count (t : IntType) (n : N) : N := (n mod N.pos (bits t))%N.

Definition shl_masked (t : IntType) (x : Z) (n : N) : Z :=
  shl t x (shift_count t n).

Definition shr_masked (t : IntType) (x : Z) (n : N) : Z :=
  shr t x (shift_count t n).

(** [x / y] truncates toward zero.  It has no defined result when the
    divisor is zero, nor when the quotient is not a value of the type
    (the least value of a signed type divided by [-1]): [None]. *)
Definition div (t : IntType) (x y : Z) : option Z :=
  if y =? 0 then None
  else if is_signed t && (x =? min_val t) && (y =? -1) then None
  else Some (Z.quot x y).

(** [x % y], with the sign of the dividend; undefined where [x / y] is. *)
Definition rem (t : IntType) (x y : Z) : option Z :=
  if y =? 0 then None
  else if is_signed t && (x =? min_val t) && (y =? -1) then None
  else Some (Z.rem x y).

End CInt.

(* ================================================================== *)
(** * The type [double] *)
(* ================================================================== *)

Module CDouble.

(** IEEE-754 binary64: 53 bits of precision, exponents below 1024;
    arithmetic rounds to nearest, ties to even. *)
Definition double : Set := spec_float.
Definition prec : Z := 53.
Definition emax : Z := 1024.

(** Conversion of an integer to [double]. *)
Definition of_int (z : Z) : double := binary_normalize prec emax z 0 false.

Definition mul (x y : double) : double := SFmul prec emax x y.
Definition div (x y : double) : double := SFdiv prec emax x y.

(** The integer part of a finite [double] (the fraction is discarded,
    that is, rounding toward zero). *)
Definition trunc (d : double) : option Z :=
  match d with
  | S754_zero _ => Some 0
  | S754_finite s m e =>
      let mag := match e with
                 | Z.neg k => Z.pos m / 2 ^ Z.pos k
                 | _ => Z.pos m * 2 ^ e
                 end in
      Some (if s then - mag else mag)
  | S754_infinity _ | S754_nan => None
  end.

(** [(T)d]: the integer part when it is a value of [T]; the conversion
    has no defined result otherwise. *)
Definition to_int (t : CInt.IntType) (d : double) : option Z :=
  match trunc d with
  | Some z => if CInt.in_range t z then Some z else None
  | None => None
  end.

(** The literals [66.3] and [-66.3]: the binary64 numbers nearest to
    663/10 and to -663/10, [4665447738979123 * 2^-46] in magnitude. *)
Definition lit_66_3 : double := S754_finite false 4665447738979123 (-46).
Definition lit_m66_3 : double := S754_finite true 4665447738979123 (-46).

(** The rational number that a finite floating-point number denotes,
    [(-1)^s * m * 2^e]. *)
Definition to_Q (d : spec_float) : option Q :=
  match d with
  | S754_zero _ => Some 0%Q
  | S754_finite s m e =>
      let mag := match e with
                 | Z.neg k => (Z.pos m # Pos.pow 2 k)%Q
                 | _ => inject_Z (Z.pos m * 2 ^ e)
                 end in
      Some (if s then Qopp mag else mag)
  | S754_infinity _ | S754_nan => None
  end.

End CDouble.

(* ================================================================== *)
(** * The type [float] *)
(* ================================================================== *)

Module CFloat.

(** IEEE-754 binary32: 24 bits of precision, exponents below 128. *)
Definition float : Set := spec_float.
Definition prec : Z := 24.
Definition emax : Z := 128.

Definition of_int (z : Z) : float := binary_normalize prec emax z 0 false.
Definition div (x y : float) : float := SFdiv prec emax x y.

End CFloat.

(* ================================================================== *)
(** * Checking a property on a range of integers *)
(* ================================================================== *)

Module Exhaustive.

(** [all_from f p lo]: [f] holds of the [p] integers from [lo] on. *)
Fixpoint all_from (f : Z -> bool) (p : positive) (lo : Z) : bool :=
  match p with
  | xH => f lo
  | xO p' => all_from f p' lo && all_from f p' (lo + Z.pos p')
  | xI p' =>
      f lo && all_from f p' (lo + 1) && all_from f p' (lo + 1 + Z.pos p')
  end.

End Exhaustive.

(* ================================================================== *)
(** * [mn::MFixedPoint::FpS]: scale fixed by the type *)
(* ================================================================== *)

Module MFixedPoint.
Import CInt.

(** [template<class BaseType, class OverflowType, uint8_t numFracBits_>
    class FpS], whose only data member is [BaseType rawVal_].  The three
    template arguments are parameters of the type: values of two
    instantiations have different types. *)
Record FpS (BaseType OverflowType : IntType) (numFracBits_ : N) : Set :=
  mkFpS { rawVal_ : Z }.

Arguments mkFpS {BaseType OverflowType numFracBits_} _.
Arguments rawVal_ {BaseType OverflowType numFracBits_} _.

Section FpS.

Variables BaseType OverflowType : IntType.
Variable numFracBits_ : N.

Local Abbreviation Self := (FpS BaseType OverflowType numFracBits_).

(** The data member holds a value of [BaseType]. *)
Definition valid (a : Self) : Prop := in_range BaseType (rawVal_ a) = true.

(** *** Constructors *)

(** [FpS(int32_t integer) { rawVal_ = integer << numFracBits_; }]:
    the shift is done in [int], the assignment converts to
    [BaseType]. *)
Definition FpS_int (integer : Z) : Self :=
  mkFpS (cast BaseType (shl int32_t integer numFracBits_)).

(** [FpS(double dbl)
      { rawVal_ = (BaseType)(dbl * ((BaseType)1 << numFracBits_)); }] *)
Definition FpS_double (dbl : CDouble.double) : option Self :=
  let scale := shl (promote BaseType) (cast BaseType 1) numFracBits_ in
  option_map mkFpS
    (CDouble.to_int BaseType (CDouble.mul dbl (CDouble.of_int scale))).

(** *** Getters *)

Definition GetRawVal (a : Self) : Z := rawVal_ a.
Definition GetNumFracBits (a : Self) : Z := Z.of_N numFracBits_.

(** *** Compound arithmetic operators

    Each takes the object ([*this]) and the right operand and gives the
    object after the assignment, which is also the reference the
    operator returns. *)

(** [rawVal_ = rawVal_ + r.rawVal_;] *)
Definition operator_add_assign (this r : Self) : Self :=
  mkFpS (cast BaseType (add (promote BaseType) (rawVal_ this) (rawVal_ r))).

(** [FpS operator-() const { return FpS(-rawVal_); }]: the negation is
    done in the promoted [BaseType]; for a [BaseType] no wider than [int]
    the operand of the constructor has type [int], so the constructor
    chosen is [FpS(int32_t)], and the negated raw value goes through its
    shift. *)
Definition operator_neg (this : Self) : Self :=
  FpS_int (cast int32_t (neg (promote BaseType) (rawVal_ this))).

(** [rawVal_ = rawVal_ - r.rawVal_;] *)
Definition operator_sub_assign (this r : Self) : Self :=
  mkFpS (cast BaseType (sub (promote BaseType) (rawVal_ this) (rawVal_ r))).

(** [rawVal_ = (BaseType)(((OverflowType)rawVal_
                           * (OverflowType)r.rawVal_) >> numFracBits_);] *)
Definition operator_mul_assign (this r : Self) : Self :=
  let wide := promote OverflowType in
  mkFpS (cast BaseType
           (shr wide
              (mul wide (cast OverflowType (rawVal_ this))
                        (cast OverflowType (rawVal_ r)))
              numFracBits_)).

(** [rawVal_ = (BaseType)((((OverflowType)rawVal_ << numFracBits_)
                           / (OverflowType)r.rawVal_));]
    There is no test of the divisor: where the native division has no
    defined result, neither has the operator. *)
Definition operator_div_assign (this r : Self) : option Self :=
  let wide := promote OverflowType in
  option_map (fun quo => mkFpS (cast BaseType quo))
    (div wide
       (shl wide (cast OverflowType (rawVal_ this)) numFracBits_)
       (cast OverflowType (rawVal_ r))).

(** [rawVal_ = rawVal_ % r.rawVal_;] *)
Definition operator_rem_assign (this r : Self) : option Self :=
  option_map (fun m => mkFpS (cast BaseType m))
    (rem (promote BaseType) (rawVal_ this) (rawVal_ r)).

(** *** Simple arithmetic operators:
    [FpS x = *this; x op= r; return x;] *)

Definition operator_add (this r : Self) : Self :=
  let x := this in let x := operator_add_assign x r in x.

Definition operator_sub (this r : Self) : Self :=
  let x := this in let x := operator_sub_assign x r in x.

Definition operator_mul (this r : Self) : Self :=
  let x := this in let x := operator_mul_assign x r in x.

Definition operator_div (this r : Self) : option Self :=
  let x := this in operator_div_assign x r.

Definition operator_rem (this r : Self) : option Self :=
  let x := this in operator_rem_assign x r.

(** *** Comparison overloads: the raw values are compared. *)

Definition operator_eq (this r : Self) : bool := rawVal_ this =? rawVal_ r.
Definition operator_ne (this r : Self) : bool :=
  negb (rawVal_ this =? rawVal_ r).
Definition operator_lt (this r : Self) : bool := rawVal_ this <? rawVal_ r.
Definition operator_gt (this r : Self) : bool := rawVal_ this >? rawVal_ r.
Definition operator_le (this r : Self) : bool := rawVal_ this <=? rawVal_ r.
Definition operator_ge (this r : Self) : bool := rawVal_ this >=? rawVal_ r.

(** *** Conversions *)

(** [template<class IntType> IntType ToInt() const
      { return (IntType)(rawVal_ >> numFracBits_); }] *)
Definition ToInt (IntType : CInt.IntType) (this : Self) : Z :=
  cast IntType (shr (promote BaseType) (rawVal_ this) numFracBits_).

(** [return (double)rawVal_ / (double)((BaseType)1 << numFracBits_);] *)
Definition ToDouble (this : Self) : CDouble.double :=
  CDouble.div
    (CDouble.of_int (rawVal_ this))
    (CDouble.of_int (shl (promote BaseType) (cast BaseType 1) numFracBits_)).

(** [return (float)rawVal_ / (float)((BaseType)1 << numFracBits_);] *)
Definition ToFloat (this : Self) : CFloat.float :=
  CFloat.div
    (CFloat.of_int (rawVal_ this))
    (CFloat.of_int (shl (promote BaseType) (cast BaseType 1) numFracBits_)).

(** *** The number a value stands for: [rawVal_ / 2^numFracBits_]. *)
Definition value (a : Self) : Q := rawVal_ a # Pos.shiftl 1 numFracBits_.

End FpS.

Arguments valid {BaseType OverflowType numFracBits_} _.
Arguments GetRawVal {BaseType OverflowType numFracBits_} _.
Arguments GetNumFracBits {BaseType OverflowType numFracBits_} _.
Arguments operator_add_assign {BaseType OverflowType numFracBits_} _ _.
Arguments operator_sub_assign {BaseType OverflowType numFracBits_} _ _.
Arguments operator_mul_assign {BaseType OverflowType numFracBits_} _ _.
Arguments operator_div_assign {BaseType OverflowType numFracBits_} _ _.
Arguments operator_rem_assign {BaseType OverflowType numFracBits_} _ _.
Arguments operator_neg {BaseType OverflowType numFracBits_} _.
Arguments operator_add {BaseType OverflowType numFracBits_} _ _.
Arguments operator_sub {BaseType OverflowType numFracBits_} _ _.
Arguments operator_mul {BaseType OverflowType numFracBits_} _ _.
Arguments operator_div {BaseType OverflowType numFracBits_} _ _.
Arguments operator_rem {BaseType OverflowType numFracBits_} _ _.
Arguments operator_eq {BaseType OverflowType numFracBits_} _ _.
Arguments operator_ne {BaseType OverflowType numFracBits_} _ _.
Arguments operator_lt {BaseType OverflowType numFracBits_} _ _.
Arguments operator_gt {BaseType OverflowType numFracBits_} _ _.
Arguments operator_le {BaseType OverflowType numFracBits_} _ _.
Arguments operator_ge {BaseType OverflowType numFracBits_} _ _.
Arguments ToInt {BaseType OverflowType numFracBits_} _ _.
Arguments ToDouble {BaseType OverflowType numFracBits_} _.
Arguments ToFloat {BaseType OverflowType numFracBits_} _.
Arguments value {BaseType OverflowType numFracBits_} _.

(** [typedef FpS<int16_t, int32_t, 8> fp16;]
    [typedef FpS<int32_t, int64_t, 16> fp32;] *)
Definition fp16 : Set := FpS int16_t int32_t 8.
Definition fp32 : Set := FpS int32_t int64_t 16.

Definition fp16_int : Z -> fp16 := FpS_int int16_t int32_t 8.
Definition fp32_int : Z -> fp32 := FpS_int int32_t int64_t 16.
Definition fp16_double : CDouble.double -> option fp16 :=
  FpS_double int16_t int32_t 8.
Definition fp32_double : CDouble.double -> option fp32 :=
  FpS_double int32_t int64_t 16.

(** The literal operators on integers,
    [operator "" __fp32(unsigned long long int l) { return fp32((int32_t)l); }]
    and the same for [__fp16]; those on [long double] are [fp32_double]
    and [fp16_double] after the conversion to [double]. *)
Definition literal_fp32 (l : Z) : fp32 := fp32_int (cast int32_t l).
Definition literal_fp16 (l : Z) : fp16 := fp16_int (cast int32_t l).

End MFixedPoint.

(* ================================================================== *)
(** * [Fp::Fp32s]: scale stored in the object *)
(* ================================================================== *)

Module Fp.
Import CInt.

(** [class Fp32s { public: int32_t rawVal; uint8_t q; ... }] *)
Record Fp32s : Set := mkFp32s { rawVal : Z ; q : N }.

(** The two public data members hold values of their types. *)
Definition well_typed (x : Fp32s) : Prop :=
  in_range int32_t (rawVal x) = true /\ (q x < 256)%N.

(** *** Constructors

    A constructor runs on the storage of the new object and leaves the
    object in it; it is a function of what the storage held before. *)

(** [Fp32s() { }]: no member initialiser, and a body whose only line is
    commented out.  Nothing is written. *)
Definition Fp32s_default (storage : Fp32s) : Fp32s := storage.

(** [Fp32s(int32_t i, uint8_t qin) { rawVal = i << qin; q = qin; }] *)
Definition Fp32s_int (storage : Fp32s) (i : Z) (qin : N) : Fp32s :=
  let this := storage in
  let this := mkFp32s (cast int32_t (shl_masked int32_t i qin)) (q this) in
  let this := mkFp32s (rawVal this) qin in
  this.

(** [Fp32s(double dbl, uint8_t qin)
      { rawVal = (int32_t)(dbl * (1 << qin)); q = qin; }] *)
Definition Fp32s_double (storage : Fp32s) (dbl : CDouble.double) (qin : N)
  : option Fp32s :=
  match CDouble.to_int int32_t
          (CDouble.mul dbl (CDouble.of_int (shl_masked int32_t 1 qin))) with
  | Some raw => Some (mkFp32s raw qin)
  | None => None
  end.

(** The value of a comparison used as an [int]. *)
Definition int_of_bool (b : bool) : Z := if b then 1 else 0.

(** [Fp32s& operator += (Fp32s r)
    {
      if(q > r.q)
      {
        rawVal = (rawVal > (q - r.q)) + r.rawVal;
        q = q - r.q;
      }
      return *this;
    }]
    Both scales are promoted to [int] for the test and the difference. *)
Definition operator_add_assign (this r : Fp32s) : Fp32s :=
  if (Z.of_N (q this) >? Z.of_N (q r)) then
    let this :=
      mkFp32s
        (cast int32_t
           (add int32_t
              (int_of_bool
                 (rawVal this >? sub int32_t (Z.of_N (q this)) (Z.of_N (q r))))
              (rawVal r)))
        (q this) in
    let this :=
      mkFp32s (rawVal this)
        (Z.to_N (cast uint8_t (sub int32_t (Z.of_N (q this)) (Z.of_N (q r))))) in
    this
  else this.

(** [operator int32_t() { return (rawVal >> q); }] *)
Definition to_int32_t (this : Fp32s) : Z :=
  cast int32_t (shr_masked int32_t (rawVal this) (q this)).

(** [operator int64_t() { return (int64_t)(rawVal >> q); }] *)
Definition to_int64_t (this : Fp32s) : Z :=
  cast int64_t (shr_masked int32_t (rawVal this) (q this)).

(** [operator double() { return (double)rawVal / (double)(1 << q); }] *)
Definition to_double (this : Fp32s) : CDouble.double :=
  CDouble.div (CDouble.of_int (rawVal this))
              (CDouble.of_int (shl_masked int32_t 1 (q this))).

(** [operator float() { return (float)rawVal / (float)(1 << q); }] *)
Definition to_float (this : Fp32s) : CFloat.float :=
  CFloat.div (CFloat.of_int (rawVal this))
             (CFloat.of_int (shl_masked int32_t 1 (q this))).

End Fp.

(* ================================================================== *)
(** * Facts on native integers *)
(* ================================================================== *)

Module CIntFacts.
Import CInt.

Lemma modulus_pos t : 0 < modulus t.
Proof. unfold modulus. apply Z.pow_pos_nonneg; lia. Qed.

Lemma half_modulus_pos t : 0 < half_modulus t.
Proof. unfold half_modulus. apply Z.pow_pos_nonneg; lia. Qed.

Lemma modulus_twice t : modulus t = 2 * half_modulus t.
Proof.
  unfold modulus, half_modulus.
  replace (Z.pos (bits t)) with (Z.succ (Z.pos (bits t) - 1)) at 1 by lia.
  rewrite Z.pow_succ_r by lia. reflexivity.
Qed.

Lemma in_range_spec t x :
  in_range t x = true <-> min_val t <= x <= max_val t.
Proof. unfold in_range. rewrite andb_true_iff, !Z.leb_le. tauto. Qed.

Lemma wrap_in_range t x : in_range t (wrap t x) = true.
Proof.
  apply in_range_spec. unfold wrap, min_val, max_val.
  pose proof (modulus_pos t) as Hm. pose proof (modulus_twice t) as H2.
  destruct (is_signed t).
  - pose proof (Z.mod_pos_bound (x + half_modulus t) (modulus t) Hm). lia.
  - pose proof (Z.mod_pos_bound x (modulus t) Hm). lia.
Qed.

Lemma wrap_id t x : in_range t x = true -> wrap t x = x.
Proof.
  intros H. apply in_range_spec in H. revert H.
  unfold wrap, min_val, max_val.
  pose proof (modulus_twice t) as H2. pose proof (half_modulus_pos t) as Hh.
  destruct (is_signed t); intros H.
  - rewrite Z.mod_small by lia. lia.
  - apply Z.mod_small. lia.
Qed.

(** Reduction keeps the residue modulo [2^bits]. *)
Lemma wrap_mod t x : wrap t x mod modulus t = x mod modulus t.
Proof.
  unfold wrap. destruct (is_signed t).
  - rewrite Zminus_mod_idemp_l. f_equal. lia.
  - apply Z.mod_mod. pose proof (modulus_pos t). lia.
Qed.

(** Two integers with the same residue reduce to the same value. *)
Lemma wrap_congr t x y :
  x mod modulus t = y mod modulus t -> wrap t x = wrap t y.
Proof.
  intros H. unfold wrap. destruct (is_signed t); [|exact H].
  f_equal.
  rewrite <- (Zplus_mod_idemp_l x), <- (Zplus_mod_idemp_l y), H.
  reflexivity.
Qed.

Lemma wrap_wrap t x : wrap t (wrap t x) = wrap t x.
Proof. apply wrap_id, wrap_in_range. Qed.

(** Two values of the type with the same residue are equal. *)
Lemma in_range_mod_inj t x y :
  in_range t x = true -> in_range t y = true ->
  x mod modulus t = y mod modulus t -> x = y.
Proof.
  intros Hx Hy H. rewrite <- (wrap_id t x Hx), <- (wrap_id t y Hy).
  now apply wrap_congr.
Qed.

(** A narrower modulus divides a wider one, so reducing into the wide
    type first does not change the reduction into the narrow one. *)
Lemma modulus_divide s t :
  (bits s <= bits t)%positive -> (modulus s | modulus t).
Proof.
  intros H. unfold modulus.
  exists (2 ^ (Z.pos (bits t) - Z.pos (bits s))).
  rewrite <- Z.pow_add_r by lia. f_equal. lia.
Qed.

Lemma wrap_narrow s t x :
  (bits s <= bits t)%positive -> wrap s (wrap t x) = wrap s x.
Proof.
  intros H. apply wrap_congr.
  pose proof (modulus_divide s t H) as Hd.
  rewrite <- (Z.mod_mod_divide (wrap t x) (modulus t) (modulus s) Hd).
  rewrite wrap_mod. now apply Z.mod_mod_divide.
Qed.

Lemma wrap_mod_narrow s t x :
  (bits s <= bits t)%positive -> wrap t x mod modulus s = x mod modulus s.
Proof.
  intros H. pose proof (modulus_divide s t H) as Hd.
  rewrite <- (Z.mod_mod_divide (wrap t x) (modulus t) (modulus s) Hd).
  rewrite wrap_mod. now apply Z.mod_mod_divide.
Qed.

Lemma promote_bits t : (bits t <= bits (promote t))%positive.
Proof.
  unfold promote. destruct (Pos.ltb_spec (bits t) 32); simpl; lia.
Qed.

Lemma wrap_promote t x : wrap t (wrap (promote t) x) = wrap t x.
Proof. apply wrap_narrow, promote_bits. Qed.

(** Promotion does not change the value: every value of the type is a
    value of the promoted type. *)
Lemma promote_in_range t x :
  in_range t x = true -> in_range (promote t) x = true.
Proof.
  unfold promote. destruct (Pos.ltb_spec (bits t) 32) as [Hlt|Hge]; [|trivial].
  rewrite !in_range_spec. unfold min_val, max_val, half_modulus, modulus.
  simpl is_signed. simpl bits.
  assert (H1 : 2 ^ Z.pos (bits t) <= 2 ^ 31)
    by (apply Z.pow_le_mono_r; lia).
  assert (H2 : 2 ^ (Z.pos (bits t) - 1) <= 2 ^ 31)
    by (apply Z.pow_le_mono_r; lia).
  assert (H3 : 0 < 2 ^ (Z.pos (bits t) - 1))
    by (apply Z.pow_pos_nonneg; lia).
  change (2 ^ (32 - 1)) with (2 ^ 31).
  destruct (is_signed t); lia.
Qed.

(** A shift to the right is the floor of the division by the power of
    two, for negative values too. *)
Lemma shr_floor t x n : shr t x n = x / 2 ^ Z.of_N n.
Proof. unfold shr. apply Z.shiftr_div_pow2. lia. Qed.

Lemma shl_mul t x n : shl t x n = wrap t (x * 2 ^ Z.of_N n).
Proof. unfold shl. rewrite Z.shiftl_mul_pow2 by lia. reflexivity. Qed.

Lemma shift_count_small t (n : N) :
  (n < N.pos (bits t))%N -> shift_count t n = n.
Proof. intros H. unfold shift_count. now apply N.mod_small. Qed.

Lemma shl_masked_mul t x n :
  shl_masked t x n = wrap t (x * 2 ^ Z.of_N (shift_count t n)).
Proof. apply shl_mul. Qed.

Lemma shr_masked_floor t x n :
  shr_masked t x n = x / 2 ^ Z.of_N (shift_count t n).
Proof. apply shr_floor. Qed.

Lemma widens_in_range s t x :
  widens s t = true -> in_range s x = true -> in_range t x = true.
Proof.
  unfold widens. rewrite andb_true_iff, !in_range_spec. lia.
Qed.

Lemma cast_id t x : in_range t x = true -> cast t x = x.
Proof. apply wrap_id. Qed.

(** The scaling factor, as the denominator of the represented number. *)
Lemma pos_shiftl_pow2 (n : N) : Z.pos (Pos.shiftl 1 n) = 2 ^ Z.of_N n.
Proof.
  destruct n as [|p]; [reflexivity|].
  simpl Pos.shiftl. change (Z.of_N (N.pos p)) with (Z.pos p).
  induction p as [|p IH] using Pos.peano_ind; [reflexivity|].
  rewrite Pos.iter_succ, Pos2Z.inj_succ, Z.pow_succ_r by lia.
  rewrite Pos2Z.inj_xO, IH. reflexivity.
Qed.

Lemma pow2_pos (n : N) : 0 < 2 ^ Z.of_N n.
Proof. apply Z.pow_pos_nonneg; lia. Qed.

End CIntFacts.

(* ================================================================== *)
(** * Properties of [FpS] *)
(* ================================================================== *)

Module FpSProps.
Import CInt CIntFacts MFixedPoint.

Section Generic.

Variables BaseType OverflowType : IntType.
Variable numFracBits_ : N.

Local Abbreviation Self := (FpS BaseType OverflowType numFracBits_).
Local Abbreviation scale := (2 ^ Z.of_N numFracBits_).

Lemma FpS_eq (a b : Self) : rawVal_ a = rawVal_ b -> a = b.
Proof. destruct a, b; simpl; congruence. Qed.

(** The raw value after each compound operator, conversions of the
    promoted operands removed. *)
Lemma raw_add (a b : Self) :
  rawVal_ (operator_add a b) = wrap BaseType (rawVal_ a + rawVal_ b).
Proof. apply wrap_promote. Qed.

Lemma raw_sub (a b : Self) :
  rawVal_ (operator_sub a b) = wrap BaseType (rawVal_ a - rawVal_ b).
Proof. apply wrap_promote. Qed.

Lemma operators_valid (a b : Self) :
  valid (operator_add a b) /\ valid (operator_sub a b) /\
  valid (operator_mul a b) /\ valid (operator_neg a) /\
  valid (FpS_int BaseType OverflowType numFracBits_ (rawVal_ a)).
Proof. repeat split; apply wrap_in_range. Qed.

Lemma value_floor (a : Self) : Qfloor (value a) = rawVal_ a / scale.
Proof. unfold value. simpl. now rewrite pos_shiftl_pow2. Qed.

Lemma value_lt (a b : Self) : (value a < value b)%Q <-> rawVal_ a < rawVal_ b.
Proof.
  unfold value, Qlt. simpl. pose proof (Pos2Z.is_pos (Pos.shiftl 1 numFracBits_)).
  split; intros H0; nia.
Qed.

Lemma value_le (a b : Self) : (value a <= value b)%Q <-> rawVal_ a <= rawVal_ b.
Proof.
  unfold value, Qle. simpl. pose proof (Pos2Z.is_pos (Pos.shiftl 1 numFracBits_)).
  split; intros H0; nia.
Qed.

Lemma value_eq (a b : Self) : (value a == value b)%Q <-> rawVal_ a = rawVal_ b.
Proof.
  unfold value, Qeq. simpl. pose proof (Pos2Z.is_pos (Pos.shiftl 1 numFracBits_)).
  split; intros H0; nia.
Qed.

(** A shift to the right brings a value toward zero or to [-1], never
    out of the range it came from. *)
Lemma div_scale_between (x : Z) : Z.min x 0 <= x / scale <= Z.max x 0.
Proof.
  pose proof (pow2_pos numFracBits_) as Hs.
  pose proof (Z.div_mod x scale ltac:(lia)) as Hd.
  pose proof (Z.mod_pos_bound x scale Hs) as Hm.
  nia.
Qed.

Lemma zero_in_range t : in_range t 0 = true.
Proof.
  apply in_range_spec. unfold min_val, max_val.
  pose proof (half_modulus_pos t). pose proof (modulus_twice t).
  destruct (is_signed t); lia.
Qed.

Lemma shifted_in_range t (x : Z) :
  in_range t x = true -> in_range t (x / scale) = true.
Proof.
  intros H. pose proof (zero_in_range t) as H0.
  apply in_range_spec in H. apply in_range_spec in H0. apply in_range_spec.
  pose proof (div_scale_between x). lia.
Qed.

Lemma ToInt_shift (T : IntType) (a : Self) :
  ToInt T a = cast T (rawVal_ a / scale).
Proof. unfold ToInt. now rewrite shr_floor. Qed.

Lemma raw_FpS_int (i : Z) :
  (bits BaseType <= 32)%positive \/ in_range int32_t (i * scale) = true ->
  rawVal_ (FpS_int BaseType OverflowType numFracBits_ i)
  = wrap BaseType (i * scale).
Proof.
  intros H. unfold FpS_int, cast. simpl. rewrite shl_mul.
  destruct H as [H|H].
  - now apply wrap_narrow.
  - now rewrite (wrap_id int32_t).
Qed.

Section Widened.

Hypothesis Hwide : widens BaseType OverflowType = true.

Lemma valid_in_overflow (a : Self) :
  valid a -> in_range OverflowType (rawVal_ a) = true.
Proof. apply widens_in_range, Hwide. Qed.

(** The product is formed exactly when it is a value of [OverflowType]. *)
Lemma raw_mul (a b : Self) :
  valid a -> valid b ->
  in_range OverflowType (rawVal_ a * rawVal_ b) = true ->
  rawVal_ (operator_mul_assign a b)
  = wrap BaseType (rawVal_ a * rawVal_ b / scale).
Proof.
  intros Ha Hb Hp. unfold operator_mul_assign. simpl.
  rewrite (cast_id OverflowType (rawVal_ a)) by now apply valid_in_overflow.
  rewrite (cast_id OverflowType (rawVal_ b)) by now apply valid_in_overflow.
  unfold mul. rewrite (wrap_id (promote OverflowType))
    by now apply promote_in_range.
  now rewrite shr_floor.
Qed.

(** The division, conversions of the operands to [OverflowType] removed. *)
Lemma div_assign_eq (a r : Self) :
  valid a -> valid r ->
  operator_div_assign a r
  = option_map (fun quo => mkFpS (cast BaseType quo))
      (div (promote OverflowType)
         (wrap (promote OverflowType) (rawVal_ a * scale)) (rawVal_ r)).
Proof.
  intros Ha Hr. unfold operator_div_assign.
  rewrite (cast_id OverflowType (rawVal_ a)) by now apply valid_in_overflow.
  rewrite (cast_id OverflowType (rawVal_ r)) by now apply valid_in_overflow.
  now rewrite shl_mul.
Qed.

End Widened.

End Generic.

Arguments FpS_eq {BaseType OverflowType numFracBits_} _ _ _.

(** ** Conversion to an integer *)

(** C1.  [ToInt<T>()] is the raw value shifted right by [numFracBits_],
    which is the floor of the number the value stands for, converted to
    [T]: for every value whose floor is a value of [T] (every value, when
    [T] holds all of [BaseType]) the result is that floor, the rounding
    toward negative infinity.  [fp16] and [fp32] built from the double
    [66.3] convert to [66], and built from [-66.3] to [-67]. *)
Theorem ToInt_rounds_toward_negative_infinity :
  (forall B O F (T : IntType) (v : FpS B O F),
      Qfloor (value v) = rawVal_ v / 2 ^ Z.of_N F
      /\ ToInt T v = cast T (Qfloor (value v))
      /\ (in_range T (Qfloor (value v)) = true ->
           ToInt T v = Qfloor (value v))
      /\ (valid v -> widens B T = true -> ToInt T v = Qfloor (value v)))
  /\ option_map (ToInt int32_t) (fp16_double CDouble.lit_66_3) = Some 66
  /\ option_map (ToInt int32_t) (fp16_double CDouble.lit_m66_3) = Some (-67)
  /\ option_map (ToInt int32_t) (fp32_double CDouble.lit_66_3) = Some 66
  /\ option_map (ToInt int32_t) (fp32_double CDouble.lit_m66_3) = Some (-67).
Proof.
  split; [|repeat split; vm_compute; reflexivity].
  intros B O F T v.
  pose proof (value_floor B O F v) as Hf.
  pose proof (ToInt_shift B O F T v) as Hs.
  rewrite <- Hf in Hs.
  split; [exact Hf|]. split; [exact Hs|]. split.
  - intros Hr. rewrite Hs. now apply cast_id.
  - intros Hv Hw. rewrite Hs. apply cast_id.
    rewrite Hf. apply shifted_in_range.
    now apply (widens_in_range B T).
Qed.

Lemma ToInt_rounds_toward_negative_infinity_witness :
  in_range int32_t (Qfloor (value (mkFpS (-16972) : fp16))) = true /\
  ToInt int32_t (mkFpS (-16972) : fp16) = -67.
Proof.
  split; [reflexivity|].
  destruct ToInt_rounds_toward_negative_infinity as [H _].
  destruct (H int16_t int32_t 8%N int32_t (mkFpS (-16972))) as (_ & _ & H3 & _).
  rewrite H3; reflexivity.
Defined.

(** ** Multiplication *)

(** The raw values of two [fp16] multiply within [int32_t]. *)
Lemma fp16_product_in_range (a b : fp16) :
  valid a -> valid b -> in_range int32_t (rawVal_ a * rawVal_ b) = true.
Proof.
  unfold valid. rewrite !in_range_spec.
  change (min_val int16_t) with (-32768). change (max_val int16_t) with 32767.
  change (min_val int32_t) with (-2147483648).
  change (max_val int32_t) with 2147483647.
  intros Ha Hb. nia.
Qed.

Lemma fp32_product_in_range (a b : fp32) :
  valid a -> valid b -> in_range int64_t (rawVal_ a * rawVal_ b) = true.
Proof.
  unfold valid. rewrite !in_range_spec.
  change (min_val int32_t) with (-2147483648).
  change (max_val int32_t) with 2147483647.
  change (min_val int64_t) with (-9223372036854775808).
  change (max_val int64_t) with 9223372036854775807.
  intros Ha Hb. nia.
Qed.

(** C3.  [operator*=] multiplies in the widened type and shifts the
    product right: for every pair of values whose exact product of raw
    values is a value of [OverflowType] (a type holding all of
    [BaseType]), the new raw value is the floor of the product divided by
    [2^numFracBits_], reduced into [BaseType], so it has the residue of
    that floor modulo [2^bits].  For [fp16] this covers every pair of
    values; at the greatest raw value, 32767, the result is the reduction
    of the exact 4194048, where a product formed in 16 bits would have
    left 0. *)
Theorem operator_mul_assign_widened :
  (forall B O F (a b : FpS B O F),
      widens B O = true -> valid a -> valid b ->
      in_range O (rawVal_ a * rawVal_ b) = true ->
      rawVal_ (operator_mul_assign a b)
      = wrap B (rawVal_ a * rawVal_ b / 2 ^ Z.of_N F)
      /\ rawVal_ (operator_mul_assign a b) mod modulus B
         = (rawVal_ a * rawVal_ b / 2 ^ Z.of_N F) mod modulus B)
  /\ (forall a b : fp16, valid a -> valid b ->
        rawVal_ (operator_mul_assign a b)
        = wrap int16_t (rawVal_ a * rawVal_ b / 2 ^ 8))
  /\ (forall a b : fp32, valid a -> valid b ->
        rawVal_ (operator_mul_assign a b)
        = wrap int32_t (rawVal_ a * rawVal_ b / 2 ^ 16))
  /\ (let a : fp16 := mkFpS 32767 in
      rawVal_ (operator_mul_assign a a) = -256
      /\ 32767 * 32767 / 2 ^ 8 = 4194048
      /\ wrap int16_t 4194048 = -256
      /\ shr int16_t (mul int16_t 32767 32767) 8 = 0).
Proof.
  split; [|split; [|split]].
  - intros B O F a b Hw Ha Hb Hp.
    rewrite (raw_mul B O F Hw a b Ha Hb Hp).
    split; [reflexivity|apply wrap_mod].
  - intros a b Ha Hb.
    apply (raw_mul int16_t int32_t 8%N eq_refl a b Ha Hb).
    now apply fp16_product_in_range.
  - intros a b Ha Hb.
    apply (raw_mul int32_t int64_t 16%N eq_refl a b Ha Hb).
    now apply fp32_product_in_range.
  - repeat split; vm_compute; reflexivity.
Qed.

Lemma operator_mul_assign_widened_witness :
  let a : fp16 := mkFpS (-32768) in
  let b : fp16 := mkFpS 32767 in
  rawVal_ (operator_mul_assign a b) = wrap int16_t (-32768 * 32767 / 2 ^ 8).
Proof.
  destruct operator_mul_assign_widened as [H _].
  apply (H int16_t int32_t 8%N (mkFpS (-32768)) (mkFpS 32767));
    reflexivity.
Defined.

(** ** Division *)

(** Truncating division: the quotient times the divisor misses the
    dividend by less than the divisor, from the side of zero. *)
Lemma quot_truncates (x y : Z) :
  y <> 0 ->
  Z.abs (x - Z.quot x y * y) < Z.abs y /\ Z.abs (Z.quot x y * y) <= Z.abs x.
Proof.
  intros Hy.
  pose proof (Z.quot_rem' x y) as Hq.
  pose proof (Z.rem_bound_abs x y Hy) as Hb.
  pose proof (Z.rem_sign_mul x y Hy) as Hs.
  split; [replace (x - Z.quot x y * y) with (Z.rem x y) by lia; exact Hb|].
  assert (Hle : Z.abs (Z.rem x y) <= Z.abs x).
  { rewrite <- Z.rem_abs by exact Hy. apply Z.rem_le; lia. }
  replace (Z.quot x y * y) with (x - Z.rem x y) by lia.
  destruct (Z.lt_trichotomy x 0) as [Hx|[Hx|Hx]]; nia.
Qed.

(** The quotient of the scaled dividend stands for the quotient of the
    two numbers, short of it by less than one unit of the scale. *)
Lemma quotient_value_close B O F (a r q : FpS B O F) :
  rawVal_ r <> 0 ->
  rawVal_ q = Z.quot (rawVal_ a * 2 ^ Z.of_N F) (rawVal_ r) ->
  (Qabs (value q - value a / value r) < 1 # Pos.shiftl 1 F)%Q.
Proof.
  intros Hr Hq.
  pose proof (quot_truncates (rawVal_ a * 2 ^ Z.of_N F) (rawVal_ r) Hr)
    as [Ht _].
  rewrite <- Hq in Ht. clear Hq.
  unfold value. rewrite <- pos_shiftl_pow2 in Ht.
  generalize dependent (Pos.shiftl 1 F). intros sp Ht.
  destruct a as [ra], r as [rr], q as [qz]. cbn [rawVal_] in *.
  assert (Hsp : 0 < Z.pos sp) by lia.
  destruct rr as [|p|p]; [congruence| |];
    unfold Qlt, Qabs, Qminus, Qplus, Qopp, Qdiv, Qmult, Qinv;
    cbn [Qnum Qden]; rewrite ?Pos2Z.inj_mul.
  - replace (qz * (Z.pos sp * Z.pos p) + - (ra * Z.pos sp) * Z.pos sp)
      with (Z.pos sp * - (ra * Z.pos sp - qz * Z.pos p)) by ring.
    rewrite Z.abs_mul, Z.abs_opp. nia.
  - change (Z.neg sp) with (- Z.pos sp).
    change (Z.neg p) with (- Z.pos p) in Ht.
    replace (qz * (Z.pos sp * Z.pos p) + - (ra * - Z.pos sp) * Z.pos sp)
      with (Z.pos sp * (ra * Z.pos sp - qz * - Z.pos p)) by ring.
    rewrite Z.abs_mul. nia.
Qed.

(** C4.  [operator/=] shifts the widened dividend left by [numFracBits_]
    and divides it by the widened divisor, truncating: when the raw
    value of the right operand is not zero (and the quotient exists in the
    widened type), the new raw value is that quotient converted to
    [BaseType].  When the shifted dividend is a value of [OverflowType]
    and the quotient a value of [BaseType], the result stands for the
    quotient of the two numbers to within [2^-numFracBits_]: it is at
    scale [numFracBits_].  A zero divisor is not tested for: the division
    is reached and the operator has no defined result. *)
Theorem operator_div_assign_prescaled B O F (a r : FpS B O F) :
  widens B O = true -> valid a -> valid r ->
  let wide := promote O in
  let dividend := shl wide (cast O (rawVal_ a)) F in
  (rawVal_ r <> 0 ->
   (dividend = min_val wide -> rawVal_ r <> -1) ->
   operator_div_assign a r
   = Some (mkFpS (cast B (Z.quot dividend (cast O (rawVal_ r)))))
   /\ cast O (rawVal_ r) = rawVal_ r
   /\ dividend = wrap wide (rawVal_ a * 2 ^ Z.of_N F)
   /\ (in_range O (rawVal_ a * 2 ^ Z.of_N F) = true ->
       in_range B (Z.quot (rawVal_ a * 2 ^ Z.of_N F) (rawVal_ r)) = true ->
       forall q, operator_div_assign a r = Some q ->
       rawVal_ q = Z.quot (rawVal_ a * 2 ^ Z.of_N F) (rawVal_ r)
       /\ (Qabs (value q - value a / value r) < 1 # Pos.shiftl 1 F)%Q))
  /\ (rawVal_ r = 0 -> operator_div_assign a r = None).
Proof.
  intros Hw Ha Hr wide dividend.
  assert (Hca : cast O (rawVal_ a) = rawVal_ a)
    by (apply cast_id; now apply (valid_in_overflow B O F Hw)).
  assert (Hcr : cast O (rawVal_ r) = rawVal_ r)
    by (apply cast_id; now apply (valid_in_overflow B O F Hw)).
  assert (Hd : dividend = wrap wide (rawVal_ a * 2 ^ Z.of_N F))
    by (unfold dividend; now rewrite Hca, shl_mul).
  split.
  - intros Hnz Hmin.
    assert (Heq : operator_div_assign a r
                  = Some (mkFpS (cast B (Z.quot dividend (cast O (rawVal_ r)))))).
    { unfold operator_div_assign. fold wide. fold dividend. rewrite Hcr.
      unfold div.
      destruct (Z.eqb_spec (rawVal_ r) 0) as [E|_]; [contradiction|].
      destruct (Z.eqb_spec dividend (min_val wide)) as [E1|_];
        destruct (Z.eqb_spec (rawVal_ r) (-1)) as [E2|_];
        rewrite ?andb_false_r; simpl; try reflexivity.
      now elim (Hmin E1). }
    split; [exact Heq|split; [exact Hcr|split; [exact Hd|]]].
    intros Hin HinB q Hq.
    assert (Hex : dividend = rawVal_ a * 2 ^ Z.of_N F).
    { rewrite Hd. apply wrap_id. now apply promote_in_range. }
    rewrite Heq in Hq. injection Hq as <-. cbn [rawVal_].
    rewrite Hcr, Hex, cast_id by exact HinB.
    split; [reflexivity|].
    apply quotient_value_close; [exact Hnz|reflexivity].
  - intros Hz. unfold operator_div_assign, div. rewrite Hcr, Hz. reflexivity.
Qed.

Lemma operator_div_assign_prescaled_witness :
  let a : fp16 := fp16_int 10 in
  let r : fp16 := fp16_int 4 in
  operator_div_assign a r = Some (mkFpS 640) /\
  operator_div_assign a (fp16_int 0) = None.
Proof.
  pose proof (operator_div_assign_prescaled int16_t int32_t 8%N
                (fp16_int 10) (fp16_int 4) eq_refl eq_refl eq_refl) as H1.
  pose proof (operator_div_assign_prescaled int16_t int32_t 8%N
                (fp16_int 10) (fp16_int 0) eq_refl eq_refl eq_refl) as H2.
  simpl in H1, H2. destruct H1 as [H1 _]. destruct H2 as [_ H2].
  split.
  - destruct H1 as [H1 _]; [vm_compute; discriminate|vm_compute; discriminate|].
    rewrite H1. reflexivity.
  - apply H2. reflexivity.
Defined.

(** ** The unit *)

(** C7.  With [one] the value constructed from the integer 1, of raw value
    [2^numFracBits_], and [a] a value whose widened intermediate
    [rawVal_ * 2^numFracBits_] is a value of [OverflowType]:
    [a * one == a] and [a / one == a], on the raw value. *)
Theorem mul_div_one B O F (a : FpS B O F) :
  let one := FpS_int B O F 1 in
  widens B O = true ->
  rawVal_ one = 2 ^ Z.of_N F ->
  valid a ->
  in_range O (rawVal_ a * 2 ^ Z.of_N F) = true ->
  operator_mul a one = a /\ operator_div a one = Some a
  /\ operator_eq (operator_mul a one) a = true.
Proof.
  intros one Hw Hone Ha Hin.
  pose proof (pow2_pos F) as Hs.
  assert (Hvo : valid one) by apply wrap_in_range.
  assert (Hm : operator_mul a one = a).
  { apply FpS_eq. unfold operator_mul.
    rewrite (raw_mul B O F Hw a one Ha Hvo) by (now rewrite Hone).
    rewrite Hone, Z.div_mul by lia. now apply wrap_id. }
  split; [exact Hm|]. split.
  - unfold operator_div. rewrite (div_assign_eq B O F Hw a one Ha Hvo).
    rewrite (wrap_id (promote O)) by now apply promote_in_range.
    rewrite Hone. unfold div.
    destruct (Z.eqb_spec (2 ^ Z.of_N F) 0) as [E|_]; [lia|].
    destruct (Z.eqb_spec (2 ^ Z.of_N F) (-1)) as [E|_]; [lia|].
    rewrite andb_false_r. simpl. rewrite Z.quot_mul by lia.
    f_equal. apply FpS_eq. simpl. now apply cast_id.
  - rewrite Hm. unfold operator_eq. apply Z.eqb_refl.
Qed.

Lemma mul_div_one_witness :
  let a : fp16 := mkFpS (-32768) in
  operator_mul a (fp16_int 1) = a /\ operator_div a (fp16_int 1) = Some a
  /\ operator_eq (operator_mul a (fp16_int 1)) a = true.
Proof.
  apply (mul_div_one int16_t int32_t 8%N (mkFpS (-32768))); reflexivity.
Defined.

(** ** Integer round trip *)

(** C6.  For every integer [i] whose shift [i << numFracBits_] is a value
    of [BaseType], the value constructed from [i] has raw value
    [i * 2^numFracBits_] and [ToInt] gives back [i] (in a result type that
    holds [i]).  The shift is done in [int]: either [BaseType] is no wider
    than [int] or the shifted integer is a value of [int]. *)
Theorem FpS_int_ToInt_roundtrip B O F (T : IntType) (i : Z) :
  (bits B <= 32)%positive \/ in_range int32_t (i * 2 ^ Z.of_N F) = true ->
  in_range B (i * 2 ^ Z.of_N F) = true ->
  in_range T i = true ->
  rawVal_ (FpS_int B O F i) = i * 2 ^ Z.of_N F /\
  ToInt T (FpS_int B O F i) = i.
Proof.
  intros Hint HB HT.
  assert (Hraw : rawVal_ (FpS_int B O F i) = i * 2 ^ Z.of_N F).
  { rewrite raw_FpS_int by exact Hint. now apply wrap_id. }
  split; [exact Hraw|].
  rewrite ToInt_shift, Hraw.
  rewrite Z.div_mul by (pose proof (pow2_pos F); lia).
  now apply cast_id.
Qed.

Lemma FpS_int_ToInt_roundtrip_witness :
  rawVal_ (fp16_int (-67)) = -17152 /\ ToInt int32_t (fp16_int (-67)) = -67.
Proof.
  apply (FpS_int_ToInt_roundtrip int16_t int32_t 8%N int32_t (-67)).
  - left. simpl. lia.
  - reflexivity.
  - reflexivity.
Defined.

(** Without the bound on the width the round trip fails: in
    [FpS<int64_t, _, 16>] the integer 40000 has its shift
    [40000 * 2^16] within [int64_t], but the constructor shifts in
    [int], where the shift wraps to -1673527296, and [ToInt] gives
    -25536. *)
Lemma FpS_int_ToInt_roundtrip_counterexample :
  let O := mkInt 128 true in
  in_range int32_t 40000 = true
  /\ in_range int64_t (40000 * 2 ^ Z.of_N 16) = true
  /\ in_range int64_t 40000 = true
  /\ rawVal_ (FpS_int int64_t O 16 40000) = -1673527296
  /\ ToInt int64_t (FpS_int int64_t O 16 40000) = -25536
  /\ ~ (forall B O F (T : IntType) (i : Z),
          in_range B (i * 2 ^ Z.of_N F) = true ->
          in_range T i = true ->
          ToInt T (FpS_int B O F i) = i).
Proof.
  intros O. do 5 (split; [vm_compute; reflexivity|]).
  intros H.
  specialize (H int64_t O 16%N int64_t 40000 eq_refl eq_refl).
  vm_compute in H. discriminate H.
Qed.

(** ** Addition and subtraction *)

(** C5.  [(a + b) - b == a] on the raw value, the sum and the difference
    being reduced modulo [2^bits] of [BaseType]: whatever [b] is, and
    whether the sum overflows or not. *)
Theorem add_sub_cancel B O F (a b : FpS B O F) :
  valid a ->
  operator_sub (operator_add a b) b = a /\
  operator_eq (operator_sub (operator_add a b) b) a = true.
Proof.
  intros Ha.
  assert (H : operator_sub (operator_add a b) b = a).
  { apply FpS_eq. rewrite raw_sub, raw_add.
    rewrite <- (wrap_id B (rawVal_ a) Ha) at 2.
    apply wrap_congr.
    rewrite <- Zminus_mod_idemp_l, wrap_mod, Zminus_mod_idemp_l.
    f_equal. lia. }
  split; [exact H|].
  rewrite H. unfold operator_eq. apply Z.eqb_refl.
Qed.

Lemma add_sub_cancel_witness :
  let a : fp16 := mkFpS 32767 in
  let b : fp16 := mkFpS 32767 in
  rawVal_ (operator_add a b) = -2 /\
  operator_sub (operator_add a b) b = a /\
  operator_eq (operator_sub (operator_add a b) b) a = true.
Proof.
  split; [reflexivity|].
  apply (add_sub_cancel int16_t int32_t 8%N (mkFpS 32767) (mkFpS 32767)).
  reflexivity.
Defined.

(** ** Comparison *)

(** C8.  Each of [==], [!=], [<], [>], [<=], [>=] is the comparison of
    the raw values; it is the comparison of the numbers the two values
    stand for, [rawVal_ / 2^numFracBits_]; and [<=] is a total order
    (reflexive, antisymmetric, transitive, total) of which [<], [>], [>=],
    [==] and [!=] are the derived relations. *)
Theorem comparison_total_order B O F (a b c : FpS B O F) :
  (operator_eq a b = (rawVal_ a =? rawVal_ b)
   /\ operator_ne a b = negb (rawVal_ a =? rawVal_ b)
   /\ operator_lt a b = (rawVal_ a <? rawVal_ b)
   /\ operator_gt a b = (rawVal_ b <? rawVal_ a)
   /\ operator_le a b = (rawVal_ a <=? rawVal_ b)
   /\ operator_ge a b = (rawVal_ b <=? rawVal_ a))
  /\ ((operator_eq a b = true <-> (value a == value b)%Q)
      /\ (operator_ne a b = true <-> ~ (value a == value b)%Q)
      /\ (operator_lt a b = true <-> (value a < value b)%Q)
      /\ (operator_gt a b = true <-> (value b < value a)%Q)
      /\ (operator_le a b = true <-> (value a <= value b)%Q)
      /\ (operator_ge a b = true <-> (value b <= value a)%Q))
  /\ (operator_le a a = true
      /\ (operator_le a b = true -> operator_le b a = true -> a = b)
      /\ (operator_le a b = true -> operator_le b c = true ->
          operator_le a c = true)
      /\ (operator_le a b = true \/ operator_le b a = true))
  /\ (operator_lt a b = negb (operator_le b a)
      /\ operator_gt a b = operator_lt b a
      /\ operator_ge a b = operator_le b a
      /\ operator_eq a b = operator_le a b && operator_le b a
      /\ operator_ne a b = negb (operator_eq a b)).
Proof.
  unfold operator_eq, operator_ne, operator_lt, operator_gt, operator_le,
    operator_ge.
  rewrite Z.gtb_ltb, Z.geb_leb.
  split; [repeat split; reflexivity|].
  split; [|split].
  - rewrite value_eq, !value_lt, !value_le.
    rewrite negb_true_iff, Z.eqb_eq, Z.eqb_neq, !Z.ltb_lt, !Z.leb_le.
    repeat split; auto.
  - rewrite !Z.leb_le. repeat split; try lia.
    intros H1 H2. apply FpS_eq. lia.
  - repeat split; try reflexivity.
    + rewrite Z.ltb_antisym. reflexivity.
    + destruct (Z.eqb_spec (rawVal_ a) (rawVal_ b)) as [E|E];
        destruct (Z.leb_spec (rawVal_ a) (rawVal_ b));
        destruct (Z.leb_spec (rawVal_ b) (rawVal_ a)); simpl; lia.
Qed.

Lemma comparison_total_order_witness :
  let a : fp16 := fp16_int 10 in
  let b : fp16 := operator_add (fp16_int 7) (fp16_int 3) in
  a = b.
Proof.
  pose proof (comparison_total_order int16_t int32_t 8%N
                (fp16_int 10) (operator_add (fp16_int 7) (fp16_int 3))
                (fp16_int 10)) as (_ & _ & (_ & H & _) & _).
  apply H; reflexivity.
Defined.

(** ** Unary negation *)

(** C2 (the code departs from it).  [operator-()] passes the negated raw
    value to the constructor from an integer, which shifts it left by
    [numFracBits_] again: the raw value of [-a] is
    [- rawVal_ * 2^numFracBits_] reduced into [BaseType], not [- rawVal_].
    For the [fp16] value 1 (raw value 256) the raw value of [-a] is 0, the
    negation of the raw value being -256, and [(-a) + a] is [a], not
    zero; the same for [fp32]. *)
Theorem operator_neg_rescales :
  (forall B O F (a : FpS B O F),
      (bits B <= 32)%positive ->
      rawVal_ (operator_neg a)
      = wrap B (- rawVal_ a * 2 ^ Z.of_N F))
  /\ (let a : fp16 := fp16_int 1 in
      rawVal_ a = 256 /\ valid a
      /\ rawVal_ (operator_neg a) = 0
      /\ wrap int16_t (- rawVal_ a) = -256
      /\ rawVal_ (operator_add (operator_neg a) a) = 256
      /\ ToInt int32_t (operator_neg a) = 0)
  /\ (let a : fp32 := fp32_int 1 in
      rawVal_ a = 65536 /\ valid a
      /\ rawVal_ (operator_neg a) = 0
      /\ wrap int32_t (- rawVal_ a) = -65536).
Proof.
  split; [|split; repeat split; vm_compute; reflexivity].
  intros B O F a HB.
  unfold operator_neg.
  rewrite raw_FpS_int by (left; exact HB).
  apply wrap_congr.
  rewrite <- Zmult_mod_idemp_l. unfold cast, neg.
  rewrite (wrap_mod_narrow B int32_t) by exact HB.
  rewrite (wrap_mod_narrow B (promote B)) by apply promote_bits.
  now rewrite Zmult_mod_idemp_l.
Qed.

Lemma operator_neg_rescales_witness :
  rawVal_ (operator_neg (mkFpS 3 : fp16)) = wrap int16_t (- 3 * 2 ^ 8).
Proof.
  destruct operator_neg_rescales as [H _].
  apply (H int16_t int32_t 8%N (mkFpS 3)). simpl. lia.
Defined.

End FpSProps.

(* ================================================================== *)
(** * The literals of the rounding law *)
(* ================================================================== *)

Module CDoubleFacts.
Import CDouble.

(** [lit_66_3] is the correctly rounded quotient of 663 by 10, and lies
    within half a unit in the last place of 663/10. *)
Lemma lit_66_3_rounded :
  div (of_int 663) (of_int 10) = lit_66_3 /\
  div (of_int (-663)) (of_int 10) = lit_m66_3 /\
  valid_binary prec emax lit_66_3 = true /\
  2 * Z.abs (4665447738979123 * 10 - 663 * 2 ^ 46) <= 10.
Proof. repeat split; vm_compute; congruence. Qed.

(** The product by the scale of [fp16] is exact, and its integer part is
    taken toward zero: 16972 for 16972.8 and -16972 for -16972.8. *)
Lemma lit_66_3_scaled :
  trunc (mul lit_66_3 (of_int 256)) = Some 16972 /\
  trunc (mul lit_m66_3 (of_int 256)) = Some (-16972) /\
  trunc (mul lit_66_3 (of_int 65536)) = Some 4345036 /\
  trunc (mul lit_m66_3 (of_int 65536)) = Some (-4345036).
Proof. repeat split; vm_compute; reflexivity. Qed.

End CDoubleFacts.

(* ================================================================== *)
(** * Properties of [Fp32s] *)
(* ================================================================== *)

Module Fp32sProps.
Import CInt CIntFacts Fp.

(** The branch that [operator+=] takes when the left scale is the larger:
    the raw value becomes the truth value of a comparison plus the right
    raw value, and the scale the difference of the two scales. *)
Lemma operator_add_assign_larger_scale (this r : Fp32s) :
  (q r < q this)%N ->
  operator_add_assign this r
  = mkFp32s
      (wrap int32_t
         (int_of_bool
            (rawVal this >? wrap int32_t (Z.of_N (q this) - Z.of_N (q r)))
          + rawVal r))
      (Z.to_N (wrap uint8_t (wrap int32_t (Z.of_N (q this) - Z.of_N (q r))))).
Proof.
  intros H. unfold operator_add_assign.
  destruct (Z.gtb_spec (Z.of_N (q this)) (Z.of_N (q r))) as [_|Hle]; [|lia].
  cbn [rawVal q]. unfold cast, add, sub. now rewrite wrap_wrap.
Qed.

Example operator_add_assign_8_4 :
  operator_add_assign (Fp32s_int (mkFp32s 0 0) 1 8) (Fp32s_int (mkFp32s 0 0) 1 4)
  = mkFp32s 17 4.
Proof. reflexivity. Qed.

(** C9.  [operator+=] adds nothing when the scale of the left operand is
    less than or equal to the scale of the right one, in particular when
    the two scales are equal: the object, raw value and scale, is left as
    it was, and is what the operator returns. *)
Theorem operator_add_assign_no_addition (this r : Fp32s) :
  (q this <= q r)%N ->
  operator_add_assign this r = this
  /\ rawVal (operator_add_assign this r) = rawVal this
  /\ q (operator_add_assign this r) = q this.
Proof.
  intros H.
  assert (E : operator_add_assign this r = this).
  { unfold operator_add_assign.
    destruct (Z.gtb_spec (Z.of_N (q this)) (Z.of_N (q r))) as [Hgt|_];
      [lia|reflexivity]. }
  rewrite E. repeat split.
Qed.

Lemma operator_add_assign_no_addition_witness :
  let one := Fp32s_int (mkFp32s 0 0) 1 8 in
  let two := Fp32s_int (mkFp32s 0 0) 2 8 in
  operator_add_assign one two = one
  /\ rawVal (operator_add_assign one two) = 256
  /\ q (operator_add_assign one two) = 8%N.
Proof.
  apply (operator_add_assign_no_addition
           (Fp32s_int (mkFp32s 0 0) 1 8) (Fp32s_int (mkFp32s 0 0) 2 8)).
  vm_compute. discriminate.
Defined.

(** C10.  The default constructor writes neither member: the object is
    what its storage held.  Every raw value and every scale is therefore
    the state of some default-constructed object, and a property that
    holds of all default-constructed objects holds of every pair of member
    values: none is established until the members are assigned.  The
    constructor from an integer, by contrast, sets both members whatever
    the storage held. *)
Theorem Fp32s_default_assigns_nothing :
  (forall storage, Fp32s_default storage = storage)
  /\ (forall rv qv,
        in_range int32_t rv = true -> (qv < 256)%N ->
        exists storage,
          well_typed storage
          /\ rawVal (Fp32s_default storage) = rv
          /\ q (Fp32s_default storage) = qv)
  /\ (forall Inv : Fp32s -> Prop,
        (forall storage, well_typed storage -> Inv (Fp32s_default storage)) ->
        forall x, well_typed x -> Inv x)
  /\ (forall storage storage' i qin,
        Fp32s_int storage i qin = Fp32s_int storage' i qin)
  /\ (forall storage i qin,
        rawVal (Fp32s_int storage i qin)
        = wrap int32_t (i * 2 ^ Z.of_N (qin mod 32))
        /\ q (Fp32s_int storage i qin) = qin).
Proof.
  split; [reflexivity|]. split; [|split; [|split]].
  - intros rv qv Hr Hq. exists (mkFp32s rv qv).
    repeat split; assumption.
  - intros Inv H x Hx. exact (H x Hx).
  - reflexivity.
  - intros storage i qin. unfold Fp32s_int. cbn [rawVal q].
    split; [|reflexivity].
    unfold cast. rewrite shl_masked_mul. apply wrap_wrap.
Qed.

Lemma Fp32s_default_assigns_nothing_witness :
  exists storage,
    well_typed storage
    /\ rawVal (Fp32s_default storage) = -1
    /\ q (Fp32s_default storage) = 200%N.
Proof.
  destruct Fp32s_default_assigns_nothing as (_ & H & _).
  apply (H (-1) 200%N); reflexivity.
Defined.

End Fp32sProps.

(* ================================================================== *)
(** * Further properties of [FpS] *)
(* ================================================================== *)

Module FpSAlgebra.
Import CInt CIntFacts MFixedPoint FpSProps.

Lemma wrap_zero t : wrap t 0 = 0.
Proof. apply wrap_id, zero_in_range. Qed.

Lemma raw_FpS_int_zero B O F : rawVal_ (FpS_int B O F 0) = 0.
Proof.
  unfold FpS_int, cast. cbn [rawVal_]. rewrite shl_mul, Z.mul_0_l.
  now rewrite !wrap_zero.
Qed.

(** ** Addition and subtraction *)

(** [a + b == b + a] and [(a + b) + c == a + (b + c)] on the raw value,
    for all operands: the reduction modulo [2^bits] after each sum does
    not depend on the order of the sums, overflow included. *)
Theorem operator_add_comm_assoc B O F (a b c : FpS B O F) :
  operator_add a b = operator_add b a
  /\ operator_add (operator_add a b) c = operator_add a (operator_add b c).
Proof.
  split; apply FpS_eq; rewrite !raw_add.
  - f_equal. lia.
  - apply wrap_congr.
    rewrite <- Zplus_mod_idemp_l, wrap_mod, Zplus_mod_idemp_l.
    rewrite <- (Zplus_mod_idemp_r (wrap B (rawVal_ b + rawVal_ c))), wrap_mod.
    rewrite Zplus_mod_idemp_r. f_equal. lia.
Qed.

(** The difference of two values is zero exactly when they compare
    equal, and the value zero is neutral for the sum. *)
Theorem operator_sub_zero_iff_eq B O F (a b : FpS B O F) :
  valid a -> valid b ->
  (rawVal_ (operator_sub a b) = 0 <-> operator_eq a b = true)
  /\ operator_add a (FpS_int B O F 0) = a
  /\ operator_sub a (FpS_int B O F 0) = a.
Proof.
  intros Ha Hb. split; [|split].
  - rewrite raw_sub. unfold operator_eq. rewrite Z.eqb_eq. split.
    + intros H. apply (in_range_mod_inj B _ _ Ha Hb).
      apply Z.cong_iff_0. rewrite <- wrap_mod, H. apply Z.mod_0_l.
      pose proof (modulus_pos B). lia.
    + intros ->. rewrite Z.sub_diag. apply wrap_zero.
  - apply FpS_eq. rewrite raw_add, raw_FpS_int_zero, Z.add_0_r.
    now apply wrap_id.
  - apply FpS_eq. rewrite raw_sub, raw_FpS_int_zero, Z.sub_0_r.
    now apply wrap_id.
Qed.

Lemma operator_sub_zero_iff_eq_witness :
  let a : fp16 := fp16_int 3 in
  let b : fp16 := mkFpS 768 in
  (rawVal_ (operator_sub a b) = 0 <-> operator_eq a b = true)
  /\ operator_add a (fp16_int 0) = a
  /\ operator_sub a (fp16_int 0) = a.
Proof.
  apply (operator_sub_zero_iff_eq int16_t int32_t 8%N (fp16_int 3) (mkFpS 768));
    reflexivity.
Defined.

(** Without overflow the sum keeps the order: from [a <= b] follows
    [a + c <= b + c] when both sums are values of [BaseType]. *)
Theorem operator_add_monotone B O F (a b c : FpS B O F) :
  in_range B (rawVal_ a + rawVal_ c) = true ->
  in_range B (rawVal_ b + rawVal_ c) = true ->
  operator_le a b = true ->
  operator_le (operator_add a c) (operator_add b c) = true.
Proof.
  intros Ha Hb. unfold operator_le. rewrite !raw_add.
  rewrite (wrap_id B _ Ha), (wrap_id B _ Hb), !Z.leb_le. lia.
Qed.

Lemma operator_add_monotone_witness :
  operator_le (operator_add (fp16_int (-3)) (fp16_int 100))
              (operator_add (fp16_int 5) (fp16_int 100)) = true.
Proof.
  apply (operator_add_monotone int16_t int32_t 8%N
           (fp16_int (-3)) (fp16_int 5) (fp16_int 100)); reflexivity.
Defined.

(** ** The constructor from an integer *)

(** The sum and the difference of two constructed values are the value
    constructed from the sum and the difference of the integers (taken in
    [int]), whether anything overflows or not. *)
Theorem FpS_int_add_sub B O F (i j : Z) :
  (bits B <= 32)%positive ->
  operator_add (FpS_int B O F i) (FpS_int B O F j)
  = FpS_int B O F (add int32_t i j)
  /\ operator_sub (FpS_int B O F i) (FpS_int B O F j)
     = FpS_int B O F (sub int32_t i j).
Proof.
  intros HB.
  assert (Hl : forall x, (bits B <= 32)%positive
                         \/ in_range int32_t (x * 2 ^ Z.of_N F) = true)
    by (intros; now left).
  split; apply FpS_eq.
  - rewrite raw_add, !raw_FpS_int by apply Hl.
    apply wrap_congr. unfold add.
    rewrite <- (Zmult_mod_idemp_l (wrap int32_t (i + j))).
    rewrite (wrap_mod_narrow B int32_t) by exact HB.
    rewrite Zmult_mod_idemp_l.
    rewrite <- Zplus_mod_idemp_l, wrap_mod, Zplus_mod_idemp_l.
    rewrite <- Zplus_mod_idemp_r, wrap_mod, Zplus_mod_idemp_r.
    f_equal. lia.
  - rewrite raw_sub, !raw_FpS_int by apply Hl.
    apply wrap_congr. unfold sub.
    rewrite <- (Zmult_mod_idemp_l (wrap int32_t (i - j))).
    rewrite (wrap_mod_narrow B int32_t) by exact HB.
    rewrite Zmult_mod_idemp_l.
    rewrite <- Zminus_mod_idemp_l, wrap_mod, Zminus_mod_idemp_l.
    rewrite <- Zminus_mod_idemp_r, wrap_mod, Zminus_mod_idemp_r.
    f_equal. lia.
Qed.

Lemma FpS_int_add_sub_witness :
  operator_add (fp16_int 10) (fp16_int 5) = fp16_int 15
  /\ operator_sub (fp16_int 10) (fp16_int 5) = fp16_int 5.
Proof.
  apply (FpS_int_add_sub int16_t int32_t 8%N 10 5). simpl. lia.
Defined.

(** Construction from an integer out of range wraps silently: integers
    that differ by [2^(bits - numFracBits_)] give the same value. *)
Theorem FpS_int_wraps B O F (i : Z) :
  (bits B <= 32)%positive ->
  Z.of_N F <= Z.pos (bits B) ->
  FpS_int B O F (i + 2 ^ (Z.pos (bits B) - Z.of_N F)) = FpS_int B O F i.
Proof.
  intros HB HF. apply FpS_eq.
  rewrite !raw_FpS_int by now left.
  apply wrap_congr.
  rewrite Z.mul_add_distr_r, <- Z.pow_add_r by lia.
  replace (Z.pos (bits B) - Z.of_N F + Z.of_N F) with (Z.pos (bits B)) by lia.
  fold (modulus B).
  rewrite <- Zplus_mod_idemp_r, Z.mod_same, Z.add_0_r;
    [reflexivity|pose proof (modulus_pos B); lia].
Qed.

Lemma FpS_int_wraps_witness : fp16_int (-128 + 2 ^ (16 - 8)) = fp16_int (-128).
Proof.
  apply (FpS_int_wraps int16_t int32_t 8%N (-128)); simpl; lia.
Defined.

(** On the integers whose shift is a value of [BaseType] the constructor
    keeps the order and is one-to-one. *)
Theorem FpS_int_order B O F (i j : Z) :
  (bits B <= 32)%positive ->
  in_range B (i * 2 ^ Z.of_N F) = true ->
  in_range B (j * 2 ^ Z.of_N F) = true ->
  (operator_lt (FpS_int B O F i) (FpS_int B O F j) = true <-> i < j)
  /\ (operator_le (FpS_int B O F i) (FpS_int B O F j) = true <-> i <= j)
  /\ (operator_eq (FpS_int B O F i) (FpS_int B O F j) = true <-> i = j).
Proof.
  intros HB Hi Hj. pose proof (pow2_pos F) as Hs.
  unfold operator_lt, operator_le, operator_eq.
  rewrite !raw_FpS_int by now left.
  rewrite (wrap_id B _ Hi), (wrap_id B _ Hj).
  rewrite Z.ltb_lt, Z.leb_le, Z.eqb_eq.
  repeat split; intros; nia.
Qed.

Lemma FpS_int_order_witness :
  (operator_lt (fp16_int (-128)) (fp16_int 127) = true <-> -128 < 127)
  /\ (operator_le (fp16_int (-128)) (fp16_int 127) = true <-> -128 <= 127)
  /\ (operator_eq (fp16_int (-128)) (fp16_int 127) = true <-> -128 = 127).
Proof.
  apply (FpS_int_order int16_t int32_t 8%N (-128) 127);
    [simpl; lia|reflexivity|reflexivity].
Defined.

(** ** Conversion to an integer *)

(** [ToInt] keeps the order: from [a <= b] follows
    [ToInt(a) <= ToInt(b)], in a result type that holds both floors. *)
Theorem ToInt_monotone B O F (T : IntType) (a b : FpS B O F) :
  in_range T (rawVal_ a / 2 ^ Z.of_N F) = true ->
  in_range T (rawVal_ b / 2 ^ Z.of_N F) = true ->
  operator_le a b = true ->
  ToInt T a <= ToInt T b.
Proof.
  intros Ha Hb. unfold operator_le. rewrite Z.leb_le. intros Hle.
  rewrite !ToInt_shift, !cast_id by assumption.
  apply Z.div_le_mono; [apply pow2_pos|exact Hle].
Qed.

Lemma ToInt_monotone_witness :
  ToInt int32_t (mkFpS (-16972) : fp16) <= ToInt int32_t (mkFpS (-16896) : fp16).
Proof.
  apply (ToInt_monotone int16_t int32_t 8%N int32_t
           (mkFpS (-16972)) (mkFpS (-16896))); reflexivity.
Defined.

(** Adding a whole number adds it to the integer part: when the sum does
    not overflow, [ToInt(a + FpS(k)) = ToInt(a) + k], for negative values
    too. *)
Theorem ToInt_add_int B O F (T : IntType) (a : FpS B O F) (k : Z) :
  (bits B <= 32)%positive ->
  in_range B (rawVal_ a + k * 2 ^ Z.of_N F) = true ->
  in_range T (rawVal_ a / 2 ^ Z.of_N F) = true ->
  in_range T (rawVal_ a / 2 ^ Z.of_N F + k) = true ->
  ToInt T (operator_add a (FpS_int B O F k)) = ToInt T a + k.
Proof.
  intros HB Hs HTa HT. pose proof (pow2_pos F) as Hp.
  assert (Hraw : rawVal_ (operator_add a (FpS_int B O F k))
                 = rawVal_ a + k * 2 ^ Z.of_N F).
  { rewrite raw_add, raw_FpS_int by now left.
    transitivity (wrap B (rawVal_ a + k * 2 ^ Z.of_N F));
      [|now apply wrap_id].
    apply wrap_congr.
    rewrite <- Zplus_mod_idemp_r, wrap_mod, Zplus_mod_idemp_r. reflexivity. }
  rewrite !ToInt_shift, Hraw, Z.div_add by lia.
  now rewrite !cast_id.
Qed.

Lemma ToInt_add_int_witness :
  ToInt int32_t (operator_add (mkFpS (-16972) : fp16) (fp16_int 100))
  = ToInt int32_t (mkFpS (-16972) : fp16) + 100.
Proof.
  apply (ToInt_add_int int16_t int32_t 8%N int32_t (mkFpS (-16972)) 100);
    [simpl; lia|reflexivity|reflexivity|reflexivity].
Defined.

(** ** Multiplication *)

(** [a * b == b * a], and the product with the value zero is zero, for
    all operands. *)
Theorem operator_mul_comm_zero B O F (a b : FpS B O F) :
  operator_mul a b = operator_mul b a
  /\ operator_mul a (FpS_int B O F 0) = FpS_int B O F 0
  /\ operator_mul (FpS_int B O F 0) a = FpS_int B O F 0.
Proof.
  assert (Hc : forall x y : FpS B O F, operator_mul x y = operator_mul y x).
  { intros x y. apply FpS_eq. unfold operator_mul, operator_mul_assign, mul.
    cbn [rawVal_]. now rewrite Z.mul_comm. }
  assert (Hz : operator_mul a (FpS_int B O F 0) = FpS_int B O F 0).
  { apply FpS_eq. rewrite raw_FpS_int_zero.
    unfold operator_mul, operator_mul_assign, mul, shr, cast.
    cbn [rawVal_]. fold (FpS_int B O F 0). rewrite raw_FpS_int_zero.
    now rewrite wrap_zero, Z.mul_0_r, wrap_zero, Z.shiftr_0_l, wrap_zero. }
  split; [apply Hc|]. split; [exact Hz|]. now rewrite Hc.
Qed.

(** The product rounds toward negative infinity: when nothing overflows,
    the number the product stands for is at most the product of the two
    numbers and less than [2^-numFracBits_] below it. *)
Theorem operator_mul_rounds_down B O F (a b : FpS B O F) :
  widens B O = true -> valid a -> valid b ->
  in_range O (rawVal_ a * rawVal_ b) = true ->
  in_range B (rawVal_ a * rawVal_ b / 2 ^ Z.of_N F) = true ->
  (value (operator_mul a b) <= value a * value b)%Q
  /\ (value a * value b < value (operator_mul a b) + (1 # Pos.shiftl 1 F))%Q.
Proof.
  intros Hw Ha Hb HO HB.
  pose proof (raw_mul B O F Hw a b Ha Hb HO) as Hraw.
  rewrite (wrap_id B _ HB) in Hraw.
  unfold value, operator_mul. rewrite Hraw.
  pose proof (pos_shiftl_pow2 F) as Hs. rewrite <- Hs.
  generalize (Pos.shiftl 1 F). intros sp.
  pose proof (Z.mul_div_le (rawVal_ a * rawVal_ b) (Z.pos sp) ltac:(lia)) as H1.
  pose proof (Z.mul_succ_div_gt (rawVal_ a * rawVal_ b) (Z.pos sp) ltac:(lia))
    as H2.
  unfold Qle, Qlt, Qmult, Qplus. cbn [Qnum Qden].
  rewrite ?Pos2Z.inj_mul. split; nia.
Qed.

Lemma operator_mul_rounds_down_witness :
  let a : fp16 := mkFpS (-1) in
  let b : fp16 := mkFpS 1 in
  rawVal_ (operator_mul a b) = -1
  /\ (value (operator_mul a b) <= value a * value b)%Q
  /\ (value a * value b < value (operator_mul a b) + (1 # Pos.shiftl 1 8))%Q.
Proof.
  split; [reflexivity|].
  apply (operator_mul_rounds_down int16_t int32_t 8%N (mkFpS (-1)) (mkFpS 1));
    reflexivity.
Defined.

(** The product with a whole number is exact: when nothing overflows,
    the raw value of [a * FpS(k)] is [k] times the raw value of [a]. *)
Theorem operator_mul_by_int B O F (a : FpS B O F) (k : Z) :
  widens B O = true -> valid a ->
  rawVal_ (FpS_int B O F k) = k * 2 ^ Z.of_N F ->
  in_range O (rawVal_ a * (k * 2 ^ Z.of_N F)) = true ->
  in_range B (rawVal_ a * k) = true ->
  rawVal_ (operator_mul a (FpS_int B O F k)) = rawVal_ a * k.
Proof.
  intros Hw Ha Hk HO HB. pose proof (pow2_pos F) as Hp.
  assert (Hvk : valid (FpS_int B O F k)) by apply wrap_in_range.
  unfold operator_mul.
  rewrite (raw_mul B O F Hw a _ Ha Hvk) by (now rewrite Hk).
  rewrite Hk, Z.mul_assoc, Z.div_mul by lia. now apply wrap_id.
Qed.

Lemma operator_mul_by_int_witness :
  rawVal_ (operator_mul (mkFpS (-641) : fp16) (fp16_int 4)) = -641 * 4.
Proof.
  apply (operator_mul_by_int int16_t int32_t 8%N (mkFpS (-641)) 4);
    reflexivity.
Defined.

(** ** Division and remainder *)

Lemma div_some t x y :
  y <> 0 -> (x = min_val t -> y <> -1) -> div t x y = Some (Z.quot x y).
Proof.
  intros Hy Hm. unfold div.
  destruct (Z.eqb_spec y 0) as [E|_]; [contradiction|].
  destruct (Z.eqb_spec x (min_val t)) as [E1|_];
    destruct (Z.eqb_spec y (-1)) as [E2|_];
    rewrite ?andb_false_r; simpl; try reflexivity.
  now elim (Hm E1).
Qed.

Lemma rem_some t x y :
  y <> 0 -> (x = min_val t -> y <> -1) -> rem t x y = Some (Z.rem x y).
Proof.
  intros Hy Hm. unfold rem.
  destruct (Z.eqb_spec y 0) as [E|_]; [contradiction|].
  destruct (Z.eqb_spec x (min_val t)) as [E1|_];
    destruct (Z.eqb_spec y (-1)) as [E2|_];
    rewrite ?andb_false_r; simpl; try reflexivity.
  now elim (Hm E1).
Qed.

(** A value divided by itself is the value one, of raw value
    [2^numFracBits_], and zero divided by a value is zero: for every
    value other than zero whose widened intermediate is a value of
    [OverflowType]. *)
Theorem operator_div_self B O F (a : FpS B O F) :
  widens B O = true -> valid a ->
  rawVal_ a <> 0 ->
  in_range B (2 ^ Z.of_N F) = true ->
  in_range O (rawVal_ a * 2 ^ Z.of_N F) = true ->
  operator_div a a = Some (mkFpS (2 ^ Z.of_N F))
  /\ operator_div (FpS_int B O F 0) a = Some (FpS_int B O F 0).
Proof.
  intros Hw Ha Hnz Hs HO. pose proof (pow2_pos F) as Hp.
  assert (Hv0 : valid (FpS_int B O F 0)) by apply wrap_in_range.
  split; unfold operator_div.
  - rewrite (div_assign_eq B O F Hw a a Ha Ha).
    rewrite (wrap_id (promote O)) by now apply promote_in_range.
    rewrite div_some.
    + cbn [option_map]. do 2 f_equal.
      rewrite Z.mul_comm, Z.quot_mul by exact Hnz. now apply cast_id.
    + exact Hnz.
    + intros Hmin Hm1. rewrite Hm1 in Hmin.
      pose proof (promote_in_range O _ (widens_in_range B O _ Hw Hs)) as Hr.
      apply in_range_spec in Hr. revert Hmin Hr. unfold min_val, max_val.
      pose proof (half_modulus_pos (promote O)).
      destruct (is_signed (promote O)); lia.
  - rewrite (div_assign_eq B O F Hw _ a Hv0 Ha).
    rewrite raw_FpS_int_zero, Z.mul_0_l, wrap_zero.
    rewrite div_some.
    + cbn [option_map]. f_equal. apply FpS_eq. cbn [rawVal_].
      rewrite raw_FpS_int_zero, Z.quot_0_l by exact Hnz. apply wrap_zero.
    + exact Hnz.
    + intros Hmin Hm1.
      pose proof (promote_in_range O _ (valid_in_overflow B O F Hw a Ha))
        as Hr.
      apply in_range_spec in Hr. revert Hmin Hr. unfold min_val.
      pose proof (half_modulus_pos (promote O)).
      destruct (is_signed (promote O)); lia.
Qed.

Lemma operator_div_self_witness :
  let a : fp16 := mkFpS (-32768) in
  operator_div a a = Some (fp16_int 1)
  /\ operator_div (fp16_int 0) a = Some (fp16_int 0).
Proof.
  apply (operator_div_self int16_t int32_t 8%N (mkFpS (-32768)));
    [reflexivity|reflexivity|discriminate|reflexivity|reflexivity].
Defined.

(** [operator%] is the remainder of the two numbers at the scale of the
    operands: with a divisor that is not zero, [a % r] has the sign of
    [a], is smaller than [r] in magnitude, and [a] is a whole number of
    times [r] plus [a % r]; no reduction into [BaseType] is needed.  With
    a zero divisor there is no result. *)
Theorem operator_rem_fixed_point B O F (a r : FpS B O F) :
  valid a -> valid r ->
  (rawVal_ r <> 0 ->
   (rawVal_ a = min_val (promote B) -> rawVal_ r <> -1) ->
   exists m,
     operator_rem a r = Some m
     /\ rawVal_ m = Z.rem (rawVal_ a) (rawVal_ r)
     /\ valid m
     /\ Z.abs (rawVal_ m) < Z.abs (rawVal_ r)
     /\ 0 <= rawVal_ m * rawVal_ a
     /\ (value a
         == inject_Z (Z.quot (rawVal_ a) (rawVal_ r)) * value r + value m)%Q)
  /\ (rawVal_ r = 0 -> operator_rem a r = None).
Proof.
  intros Ha Hr. split.
  - intros Hnz Hmin.
    pose proof (Z.quot_rem' (rawVal_ a) (rawVal_ r)) as Hq.
    pose proof (Z.rem_bound_abs (rawVal_ a) (rawVal_ r) Hnz) as Hb.
    pose proof (Z.rem_sign_mul (rawVal_ a) (rawVal_ r) Hnz) as Hs.
    assert (Hle : Z.abs (Z.rem (rawVal_ a) (rawVal_ r)) <= Z.abs (rawVal_ a)).
    { rewrite <- Z.rem_abs by exact Hnz. apply Z.rem_le; lia. }
    assert (Hin : in_range B (Z.rem (rawVal_ a) (rawVal_ r)) = true).
    { pose proof (zero_in_range B) as H0.
      apply in_range_spec in H0. apply in_range_spec in Ha.
      apply in_range_spec.
      destruct (Z.lt_trichotomy (rawVal_ a) 0) as [Hx|[Hx|Hx]]; nia. }
    exists (mkFpS (Z.rem (rawVal_ a) (rawVal_ r))).
    split; [|split; [reflexivity|split; [exact Hin|split; [exact Hb|split]]]].
    + unfold operator_rem, operator_rem_assign.
      rewrite rem_some by assumption. cbn [option_map].
      now rewrite cast_id.
    + cbn [rawVal_]. lia.
    + unfold value. cbn [rawVal_].
      generalize (Pos.shiftl 1 F). intros sp.
      unfold Qeq, Qmult, Qplus, inject_Z. cbn [Qnum Qden].
      rewrite ?Pos2Z.inj_mul. nia.
  - intros Hz. unfold operator_rem, operator_rem_assign, rem.
    now rewrite Hz.
Qed.

Lemma operator_rem_fixed_point_witness :
  let a : fp16 := mkFpS (-1920) in
  let r : fp16 := mkFpS 512 in
  exists m,
     operator_rem a r = Some m
     /\ rawVal_ m = Z.rem (-1920) 512
     /\ valid m
     /\ Z.abs (rawVal_ m) < Z.abs 512
     /\ 0 <= rawVal_ m * -1920
     /\ (value a == inject_Z (Z.quot (-1920) 512) * value r + value m)%Q.
Proof.
  destruct (operator_rem_fixed_point int16_t int32_t 8%N
              (mkFpS (-1920)) (mkFpS 512) eq_refl eq_refl) as [H _].
  apply H; vm_compute; discriminate.
Defined.

(** ** The range of the raw value *)

(** Whatever the operands, the raw value that a constructor or an
    operator leaves is a value of [BaseType]. *)
Theorem operations_keep_range B O F (a b : FpS B O F)
        (i : Z) (d : CDouble.double) :
  valid (FpS_int B O F i)
  /\ (forall v, FpS_double B O F d = Some v -> valid v)
  /\ valid (operator_add a b) /\ valid (operator_sub a b)
  /\ valid (operator_mul a b) /\ valid (operator_neg a)
  /\ (forall v, operator_div a b = Some v -> valid v)
  /\ (forall v, operator_rem a b = Some v -> valid v).
Proof.
  split; [apply wrap_in_range|]. split.
  { unfold FpS_double, CDouble.to_int. intros v.
    destruct (CDouble.trunc _) as [z|]; [|discriminate].
    destruct (in_range B z) eqn:E; [|discriminate].
    cbn [option_map]. intros [= <-]. exact E. }
  do 4 (split; [apply wrap_in_range|]).
  split; intros v.
  - unfold operator_div, operator_div_assign.
    destruct (div _ _ _); [|discriminate].
    cbn [option_map]. intros [= <-]. apply wrap_in_range.
  - unfold operator_rem, operator_rem_assign.
    destruct (rem _ _ _); [|discriminate].
    cbn [option_map]. intros [= <-]. apply wrap_in_range.
Qed.

Lemma operations_keep_range_witness :
  forall v, operator_div (fp16_int 10) (fp16_int 4) = Some v -> valid v.
Proof.
  destruct (operations_keep_range int16_t int32_t 8%N
              (fp16_int 10) (fp16_int 4) 0 CDouble.lit_66_3)
    as (_ & _ & _ & _ & _ & _ & H & _).
  exact H.
Defined.

(** ** The literal operators *)

(** An integer literal within the range of the type gives the value
    that converts back to it: up to 127 for [__fp16] and up to 32767 for
    [__fp32]. *)
Theorem literal_roundtrip (l : Z) :
  (0 <= l <= 127 ->
   rawVal_ (literal_fp16 l) = l * 2 ^ 8
   /\ ToInt int32_t (literal_fp16 l) = l)
  /\ (0 <= l <= 32767 ->
      rawVal_ (literal_fp32 l) = l * 2 ^ 16
      /\ ToInt int32_t (literal_fp32 l) = l).
Proof.
  assert (H32 : forall x, 0 <= x <= 32767 -> cast int32_t x = x).
  { intros x Hx. apply cast_id, in_range_spec.
    change (min_val int32_t) with (-2147483648).
    change (max_val int32_t) with 2147483647. lia. }
  assert (H16 : forall x, 0 <= x <= 127 -> in_range int16_t (x * 2 ^ 8) = true).
  { intros x Hx. apply in_range_spec. change (min_val int16_t) with (-32768).
    change (max_val int16_t) with 32767. lia. }
  assert (H3 : forall x, 0 <= x <= 32767 ->
                         in_range int32_t (x * 2 ^ 16) = true).
  { intros x Hx. apply in_range_spec.
    change (min_val int32_t) with (-2147483648).
    change (max_val int32_t) with 2147483647. lia. }
  split; intros Hl; unfold literal_fp16, literal_fp32, fp16_int, fp32_int;
    rewrite H32 by lia.
  - assert (Hr : rawVal_ (FpS_int int16_t int32_t 8 l) = l * 2 ^ 8).
    { rewrite raw_FpS_int by (left; simpl; lia).
      apply wrap_id. now apply H16. }
    split; [exact Hr|].
    rewrite ToInt_shift, Hr. change (2 ^ Z.of_N 8) with (2 ^ 8).
    rewrite Z.div_mul by lia. apply H32. lia.
  - assert (Hr : rawVal_ (FpS_int int32_t int64_t 16 l) = l * 2 ^ 16).
    { rewrite raw_FpS_int by (left; simpl; lia).
      apply wrap_id. now apply H3. }
    split; [exact Hr|].
    rewrite ToInt_shift, Hr. change (2 ^ Z.of_N 16) with (2 ^ 16).
    rewrite Z.div_mul by lia. now apply H32.
Qed.

Lemma literal_roundtrip_witness :
  rawVal_ (literal_fp16 127) = 127 * 2 ^ 8
  /\ ToInt int32_t (literal_fp16 127) = 127.
Proof.
  destruct (literal_roundtrip 127) as [H _]. apply H. lia.
Defined.

End FpSAlgebra.

(* ================================================================== *)
(** * Further properties of [Fp32s] *)
(* ================================================================== *)

Module Fp32sMore.
Import CInt CIntFacts Fp Fp32sProps.

Lemma pow2_div_between (x : Z) (n : N) :
  Z.min x 0 <= x / 2 ^ Z.of_N n <= Z.max x 0.
Proof. apply FpSProps.div_scale_between. Qed.

Lemma Fp32s_to_int_shift (this : Fp32s) :
  in_range int32_t (rawVal this) = true ->
  to_int32_t this = rawVal this / 2 ^ Z.of_N (shift_count int32_t (q this))
  /\ to_int64_t this
     = rawVal this / 2 ^ Z.of_N (shift_count int32_t (q this)).
Proof.
  intros Hr.
  assert (H32 : in_range int32_t
                  (rawVal this / 2 ^ Z.of_N (shift_count int32_t (q this)))
                = true)
    by now apply FpSProps.shifted_in_range.
  unfold to_int32_t, to_int64_t. rewrite shr_masked_floor.
  split; apply cast_id; [exact H32|].
  now apply (widens_in_range int32_t int64_t).
Qed.

(** The conversions to [int32_t] and to [int64_t] shift the raw value
    right by the scale of the object: for a scale below 32 both give the
    floor of [rawVal / 2^q], the rounding toward negative infinity, and
    the 64-bit result is the 32-bit one. *)
Theorem Fp32s_to_int_floor (this : Fp32s) :
  in_range int32_t (rawVal this) = true ->
  (q this < 32)%N ->
  to_int32_t this = rawVal this / 2 ^ Z.of_N (q this)
  /\ to_int64_t this = to_int32_t this
  /\ to_int32_t this * 2 ^ Z.of_N (q this) <= rawVal this
     < (to_int32_t this + 1) * 2 ^ Z.of_N (q this).
Proof.
  intros Hr Hq. pose proof (pow2_pos (q this)) as Hp.
  destruct (Fp32s_to_int_shift this Hr) as [E E64].
  rewrite (shift_count_small int32_t (q this) Hq) in E, E64.
  rewrite E64, E. split; [reflexivity|]. split; [reflexivity|].
  pose proof (Z.mul_div_le (rawVal this) _ Hp).
  pose proof (Z.mul_succ_div_gt (rawVal this) _ Hp). lia.
Qed.

Lemma Fp32s_to_int_floor_witness :
  to_int32_t (mkFp32s (-16972) 8) = -67
  /\ to_int64_t (mkFp32s (-16972) 8) = to_int32_t (mkFp32s (-16972) 8)
  /\ to_int32_t (mkFp32s (-16972) 8) * 2 ^ 8 <= -16972
     < (to_int32_t (mkFp32s (-16972) 8) + 1) * 2 ^ 8.
Proof.
  apply (Fp32s_to_int_floor (mkFp32s (-16972) 8)); reflexivity.
Defined.

(** A shift that stays within [int32_t] is by a count below 32, unless
    the integer is zero: the count used is then of no account. *)
Lemma shifted_in_int32 (i : Z) (n : N) :
  in_range int32_t (i * 2 ^ Z.of_N n) = true ->
  i * 2 ^ Z.of_N (shift_count int32_t n) = i * 2 ^ Z.of_N n.
Proof.
  intros Hr. destruct (N.lt_ge_cases n 32) as [Hn|Hn].
  - now rewrite (shift_count_small int32_t n Hn).
  - apply in_range_spec in Hr. revert Hr.
    change (min_val int32_t) with (- 2 ^ 31).
    change (max_val int32_t) with (2 ^ 31 - 1). intros Hr.
    assert (H32 : 2 ^ 31 < 2 ^ Z.of_N n) by (apply Z.pow_lt_mono_r; lia).
    assert (i = 0) by nia. subst i. lia.
Qed.

(** Constructing from an integer [i] and a scale [qin] such that
    [i << qin] is a value of [int32_t], and converting back, gives [i];
    the scale of the object is [qin]. *)
Theorem Fp32s_int_roundtrip (storage : Fp32s) (i : Z) (qin : N) :
  in_range int32_t (i * 2 ^ Z.of_N qin) = true ->
  rawVal (Fp32s_int storage i qin) = i * 2 ^ Z.of_N qin
  /\ q (Fp32s_int storage i qin) = qin
  /\ to_int32_t (Fp32s_int storage i qin) = i
  /\ to_int64_t (Fp32s_int storage i qin) = i.
Proof.
  intros Hr. pose proof (pow2_pos (shift_count int32_t qin)) as Hp.
  pose proof (shifted_in_int32 i qin Hr) as Hc.
  assert (Hraw : rawVal (Fp32s_int storage i qin)
                 = i * 2 ^ Z.of_N (shift_count int32_t qin)).
  { unfold Fp32s_int, cast. cbn [rawVal]. rewrite shl_masked_mul, wrap_wrap.
    apply wrap_id. now rewrite Hc. }
  assert (Hq : q (Fp32s_int storage i qin) = qin) by reflexivity.
  destruct (Fp32s_to_int_shift (Fp32s_int storage i qin)) as (E1 & E2).
  { now rewrite Hraw, Hc. }
  rewrite Hraw, Hq, Z.div_mul in E1, E2 by lia.
  rewrite Hraw, Hc. repeat split; assumption.
Qed.

Lemma Fp32s_int_roundtrip_witness :
  rawVal (Fp32s_int (mkFp32s 7 7) (-67) 8) = -67 * 2 ^ 8
  /\ q (Fp32s_int (mkFp32s 7 7) (-67) 8) = 8%N
  /\ to_int32_t (Fp32s_int (mkFp32s 7 7) (-67) 8) = -67
  /\ to_int64_t (Fp32s_int (mkFp32s 7 7) (-67) 8) = -67.
Proof.
  apply (Fp32s_int_roundtrip (mkFp32s 7 7) (-67) 8). reflexivity.
Defined.

(** When the scale of the left operand is the larger, [operator+=] does
    not form the sum of the raw values: the new raw value is the right
    raw value, plus one exactly when the left raw value exceeds the
    difference of the scales, and the new scale is that difference. *)
Theorem operator_add_assign_never_sums (this r : Fp32s) :
  well_typed this -> well_typed r ->
  (q r < q this)%N ->
  rawVal r < max_val int32_t ->
  let res := operator_add_assign this r in
  (rawVal res = rawVal r \/ rawVal res = rawVal r + 1)
  /\ (rawVal res = rawVal r + 1
      <-> Z.of_N (q this) - Z.of_N (q r) < rawVal this)
  /\ q res = (q this - q r)%N.
Proof.
  intros [Ht Hqt] [Hr Hqr] Hlt Hmax res. subst res.
  rewrite (operator_add_assign_larger_scale this r Hlt). cbn [rawVal q].
  assert (Hd : wrap int32_t (Z.of_N (q this) - Z.of_N (q r))
               = Z.of_N (q this) - Z.of_N (q r)).
  { apply wrap_id, in_range_spec.
    change (min_val int32_t) with (-2147483648).
    change (max_val int32_t) with 2147483647. lia. }
  rewrite Hd.
  assert (Hu : wrap uint8_t (Z.of_N (q this) - Z.of_N (q r))
               = Z.of_N (q this) - Z.of_N (q r)).
  { apply wrap_id, in_range_spec.
    change (min_val uint8_t) with 0. change (max_val uint8_t) with 255. lia. }
  rewrite Hu.
  apply in_range_spec in Hr. revert Hr Hmax.
  change (min_val int32_t) with (-2147483648).
  change (max_val int32_t) with 2147483647. intros Hr Hmax.
  assert (Hw : forall b : bool,
             wrap int32_t (int_of_bool b + rawVal r)
             = int_of_bool b + rawVal r).
  { intros b. apply wrap_id, in_range_spec.
    change (min_val int32_t) with (-2147483648).
    change (max_val int32_t) with 2147483647.
    destruct b; unfold int_of_bool; lia. }
  rewrite Hw.
  destruct (Z.gtb_spec (rawVal this) (Z.of_N (q this) - Z.of_N (q r)));
    unfold int_of_bool; repeat split; try lia.
Qed.

Lemma operator_add_assign_never_sums_witness :
  let this := mkFp32s 256 8 in
  let r := mkFp32s 16 4 in
  let res := operator_add_assign this r in
  (rawVal res = rawVal r \/ rawVal res = rawVal r + 1)
  /\ (rawVal res = rawVal r + 1
      <-> Z.of_N (q this) - Z.of_N (q r) < rawVal this)
  /\ q res = (q this - q r)%N.
Proof.
  apply (operator_add_assign_never_sums (mkFp32s 256 8) (mkFp32s 16 4));
    [split; reflexivity|split; reflexivity|reflexivity|reflexivity].
Defined.

(** The members stay values of their types: the constructor from an
    integer and [operator+=] leave a raw value within [int32_t] and a
    scale below 256. *)
Theorem Fp32s_well_typed_kept (storage this r : Fp32s) (i : Z) (qin : N) :
  ((qin < 256)%N -> well_typed (Fp32s_int storage i qin))
  /\ (well_typed this -> well_typed r ->
      well_typed (operator_add_assign this r)).
Proof.
  split.
  - intros Hq. split; [apply wrap_in_range|exact Hq].
  - intros Ht Hr. unfold operator_add_assign.
    destruct (Z.of_N (q this) >? Z.of_N (q r)); [|exact Ht].
    split; cbn [rawVal q]; [apply wrap_in_range|].
    pose proof (wrap_in_range uint8_t
                  (sub int32_t (Z.of_N (q this)) (Z.of_N (q r)))) as H.
    apply in_range_spec in H. revert H.
    change (min_val uint8_t) with 0. change (max_val uint8_t) with 255.
    unfold cast.
    generalize (wrap uint8_t (sub int32_t (Z.of_N (q this)) (Z.of_N (q r)))).
    intros z Hz. lia.
Qed.

Lemma Fp32s_well_typed_kept_witness :
  well_typed (Fp32s_int (mkFp32s 0 0) 3 8)
  /\ well_typed (operator_add_assign (mkFp32s 256 8) (mkFp32s 16 4)).
Proof.
  destruct (Fp32s_well_typed_kept (mkFp32s 0 0) (mkFp32s 256 8)
              (mkFp32s 16 4) 3 8) as [H1 H2].
  split; [apply H1; reflexivity|apply H2; split; reflexivity].
Defined.

End Fp32sMore.

(* ================================================================== *)
(** * Facts on floating-point rounding *)
(* ================================================================== *)

Module FloatFacts.

Lemma iter_pos_shr_1 k : forall m,
  iter_pos shr_1 k (Build_shr_record (Z.pos (Pos.iter xO m k)) false false)
  = Build_shr_record (Z.pos m) false false.
Proof.
  induction k as [k IH|k IH|]; intros m; cbn [iter_pos Pos.iter].
  - cbn [shr_1 orb]. now rewrite !IH.
  - now rewrite !IH.
  - reflexivity.
Qed.

Lemma digits2_pos_iter k : forall m,
  Z.pos (digits2_pos (Pos.iter xO m k)) = Z.pos (digits2_pos m) + Z.pos k.
Proof.
  induction k as [k IH|k IH|]; intros m; cbn [Pos.iter digits2_pos].
  - rewrite Pos2Z.inj_succ, !IH. lia.
  - rewrite !IH. lia.
  - lia.
Qed.

Lemma pos_shiftl_mul m (n : N) :
  Z.pos (Pos.shiftl m n) = Z.pos m * 2 ^ Z.of_N n.
Proof.
  destruct n as [|p]; [simpl; lia|].
  simpl Pos.shiftl. change (Z.of_N (N.pos p)) with (Z.pos p).
  induction p as [|p IH] using Pos.peano_ind; [simpl; lia|].
  rewrite Pos.iter_succ, Pos2Z.inj_succ, Z.pow_succ_r by lia.
  rewrite Pos2Z.inj_xO, IH. ring.
Qed.

Section Format.

Variable prec : positive.
Variable emax : Z.
Hypothesis Hemax : 2 * Z.pos prec + 2 <= emax.

Local Abbreviation emin := (3 - emax - Z.pos prec).

Lemma fexp_canonical e :
  emin <= e -> fexp (Z.pos prec) emax (Z.pos prec + e) = e.
Proof. unfold fexp, SpecFloat.emin. lia. Qed.

(** A mantissa of [prec] digits is left as it is. *)
Lemma round_canonical sx m e :
  digits2_pos m = prec -> emin <= e <= emax - Z.pos prec ->
  binary_round_aux (Z.pos prec) emax sx (Z.pos m) e loc_Exact
  = S754_finite sx m e.
Proof.
  intros Hd He. unfold binary_round_aux, shr_fexp.
  cbn [Zdigits2]. rewrite Hd, fexp_canonical, Z.sub_diag by lia.
  cbn [shr shr_record_of_loc loc_of_shr_record shr_m round_nearest_even Zdigits2].
  rewrite Hd, fexp_canonical, Z.sub_diag by lia.
  cbn [shr shr_record_of_loc shr_m].
  destruct (Z.leb_spec e (emax - Z.pos prec)); [reflexivity|lia].
Qed.

(** A mantissa of [prec] digits followed by [k] zeros loses the zeros. *)
Lemma round_shifted sx m k e :
  digits2_pos m = prec ->
  emin <= e + Z.pos k <= emax - Z.pos prec ->
  binary_round_aux (Z.pos prec) emax sx (Z.pos (Pos.iter xO m k)) e loc_Exact
  = S754_finite sx m (e + Z.pos k).
Proof.
  intros Hd He. unfold binary_round_aux, shr_fexp.
  cbn [Zdigits2]. rewrite digits2_pos_iter, Hd.
  replace (Z.pos prec + Z.pos k + e) with (Z.pos prec + (e + Z.pos k)) by lia.
  rewrite fexp_canonical by lia.
  replace (e + Z.pos k - e) with (Z.pos k) by lia.
  cbn [shr shr_record_of_loc]. rewrite iter_pos_shr_1.
  cbn [loc_of_shr_record shr_m round_nearest_even Zdigits2].
  rewrite Hd, fexp_canonical, Z.sub_diag by lia.
  cbn [shr shr_record_of_loc shr_m].
  destruct (Z.leb_spec (e + Z.pos k) (emax - Z.pos prec)); [reflexivity|lia].
Qed.

(** The conversion of a positive integer of at most [prec] digits:
    the integer, shifted left to [prec] digits. *)
Lemma round_integer sx m :
  Z.pos (digits2_pos m) <= Z.pos prec ->
  binary_round (Z.pos prec) emax sx m 0
  = S754_finite sx
      (Pos.shiftl m (Z.to_N (Z.pos prec - Z.pos (digits2_pos m))))
      (Z.pos (digits2_pos m) - Z.pos prec).
Proof.
  intros Hd. unfold binary_round, shl_align.
  assert (Hf : fexp (Z.pos prec) emax (Z.pos (digits2_pos m) + 0)
               = Z.pos (digits2_pos m) - Z.pos prec)
    by (unfold fexp, SpecFloat.emin; lia).
  rewrite Hf.
  destruct (Z.eq_dec (Z.pos (digits2_pos m)) (Z.pos prec)) as [E|E].
  - rewrite E, !Z.sub_diag. cbn [Z.sub Z.to_N Pos.shiftl].
    apply round_canonical; [now apply Pos2Z.inj|lia].
  - set (k := Z.to_pos (Z.pos prec - Z.pos (digits2_pos m))).
    assert (Hk : Z.pos k = Z.pos prec - Z.pos (digits2_pos m))
      by (unfold k; rewrite Z2Pos.id; lia).
    replace (Z.pos (digits2_pos m) - Z.pos prec - 0) with (Z.neg k) by lia.
    rewrite <- Hk. cbn [Z.to_N Pos.shiftl].
    apply round_canonical; [|lia].
    apply Pos2Z.inj. rewrite digits2_pos_iter. lia.
Qed.

Lemma pos_mul_pow2 m (n : N) :
  (m * Pos.shiftl 1 n)%positive = Pos.shiftl m n.
Proof.
  apply Pos2Z.inj. rewrite Pos2Z.inj_mul, !pos_shiftl_mul. lia.
Qed.

(** The product by a power of two is exact. *)
Lemma mul_pow2 sx mx ex (n : N) ey :
  digits2_pos mx = prec ->
  emin <= ex + ey + Z.of_N n <= emax - Z.pos prec ->
  SFmul (Z.pos prec) emax (S754_finite sx mx ex)
        (S754_finite false (Pos.shiftl 1 n) ey)
  = S754_finite sx mx (ex + ey + Z.of_N n).
Proof.
  intros Hd He. unfold SFmul.
  rewrite pos_mul_pow2, xorb_false_r.
  destruct n as [|k]; cbn [Pos.shiftl].
  - rewrite round_canonical by (assumption || (cbn [Z.of_N] in He; lia)).
    f_equal; cbn [Z.of_N]; lia.
  - rewrite round_shifted by (assumption || (cbn [Z.of_N] in He; lia)).
    f_equal; cbn [Z.of_N]; lia.
Qed.

(** The mantissa of the power of two with [prec] digits. *)
Local Abbreviation top_bit := (Pos.shiftl 1 (Pos.pred_N prec)).

Lemma top_bit_digits : digits2_pos top_bit = prec.
Proof.
  apply Pos2Z.inj.
  destruct (Pos.pred_N prec) as [|k] eqn:E; cbn [Pos.shiftl].
  - cbn [digits2_pos]. pose proof (Pos.pred_N_succ prec).
    destruct prec; simpl in E; try discriminate; reflexivity.
  - rewrite digits2_pos_iter. cbn [digits2_pos].
    assert (H : N.succ (Pos.pred_N prec) = N.pos prec)
      by apply N.succ_pos_pred.
    rewrite E in H. lia.
Qed.

(** The quotient by a power of two is exact. *)
Lemma div_pow2 sx mx ex ey :
  digits2_pos mx = prec ->
  emin <= ex - ey - Z.pos prec ->
  ex - ey - Z.pos prec + 1 <= emax - Z.pos prec ->
  SFdiv (Z.pos prec) emax (S754_finite sx mx ex)
        (S754_finite false top_bit ey)
  = S754_finite sx mx (ex - ey - Z.pos prec + 1).
Proof.
  intros Hd He1 He2. unfold SFdiv, SFdiv_core_binary.
  cbn [Zdigits2]. rewrite Hd, top_bit_digits.
  assert (He' : Z.min (fexp (Z.pos prec) emax
                         (Z.pos prec + ex - (Z.pos prec + ey))) (ex - ey)
                = ex - ey - Z.pos prec)
    by (unfold fexp, SpecFloat.emin; lia).
  rewrite He'.
  replace (ex - ey - (ex - ey - Z.pos prec)) with (Z.pos prec) by lia.
  assert (Hq : Z.div_eucl (Z.shiftl (Z.pos mx) (Z.pos prec)) (Z.pos top_bit)
               = (Z.pos (xO mx), 0)).
  { assert (Ht : Z.pos top_bit = 2 ^ (Z.pos prec - 1)).
    { rewrite pos_shiftl_mul.
      rewrite Z.mul_1_l. f_equal.
      pose proof (N.succ_pos_pred prec) as H. lia. }
    assert (Hp : 0 < 2 ^ (Z.pos prec - 1)) by (apply Z.pow_pos_nonneg; lia).
    rewrite Z.shiftl_mul_pow2 by lia.
    replace (2 ^ Z.pos prec) with (2 * 2 ^ (Z.pos prec - 1))
      by (rewrite <- Z.pow_succ_r by lia; f_equal; lia).
    rewrite Ht.
    rewrite (surjective_pairing (Z.div_eucl _ _)).
    change (fst (Z.div_eucl ?a ?b)) with (a / b).
    change (snd (Z.div_eucl ?a ?b)) with (a mod b).
    rewrite Z.mul_assoc, Z.div_mul, Z.mod_mul by lia.
    f_equal. lia. }
  rewrite Hq. cbn [xorb].
  assert (Hl : new_location (Z.pos top_bit) 0 = loc_Exact)
    by (unfold new_location, new_location_even, new_location_odd;
        destruct (Z.even _); reflexivity).
  rewrite Hl, xorb_false_r.
  change (Z.pos mx~0) with (Z.pos (Pos.iter xO mx 1)).
  now rewrite round_shifted by (assumption || lia).
Qed.

(** ** Integers and powers of two as floating-point numbers *)

Local Abbreviation of_Z z := (binary_normalize (Z.pos prec) emax z 0 false).

(** The mantissa of an integer of at most [prec] digits. *)
Local Abbreviation normal m :=
  (Pos.shiftl m (Z.to_N (Z.pos prec - Z.pos (digits2_pos m)))).

Lemma digits2_pos_shiftl_1 (n : N) :
  Z.pos (digits2_pos (Pos.shiftl 1 n)) = Z.of_N n + 1.
Proof.
  destruct n as [|k]; cbn [Pos.shiftl]; [reflexivity|].
  rewrite digits2_pos_iter. cbn [digits2_pos Z.of_N]. lia.
Qed.

Lemma of_Z_pow2 (n : N) :
  Z.of_N n + 1 <= Z.pos prec ->
  of_Z (2 ^ Z.of_N n) = S754_finite false top_bit (Z.of_N n + 1 - Z.pos prec).
Proof.
  intros Hn. rewrite <- (Z.mul_1_l (2 ^ Z.of_N n)), <- pos_shiftl_mul.
  cbn [binary_normalize]. rewrite round_integer
    by (rewrite digits2_pos_shiftl_1; lia).
  rewrite digits2_pos_shiftl_1. f_equal.
  apply Pos2Z.inj. rewrite !pos_shiftl_mul, <- Z.mul_assoc, <- Z.pow_add_r by lia.
  do 2 f_equal. pose proof (N.succ_pos_pred prec). lia.
Qed.

Lemma of_Z_pos m :
  Z.pos (digits2_pos m) <= Z.pos prec ->
  of_Z (Z.pos m)
  = S754_finite false (normal m) (Z.pos (digits2_pos m) - Z.pos prec).
Proof. intros H. cbn [binary_normalize]. now apply round_integer. Qed.

Lemma of_Z_neg m :
  Z.pos (digits2_pos m) <= Z.pos prec ->
  of_Z (Z.neg m)
  = S754_finite true (normal m) (Z.pos (digits2_pos m) - Z.pos prec).
Proof. intros H. cbn [binary_normalize]. now apply round_integer. Qed.

Lemma normal_digits m :
  Z.pos (digits2_pos m) <= Z.pos prec -> digits2_pos (normal m) = prec.
Proof.
  intros H. apply Pos2Z.inj.
  destruct (Z.to_N (Z.pos prec - Z.pos (digits2_pos m))) as [|k] eqn:E;
    cbn [Pos.shiftl].
  - lia.
  - rewrite digits2_pos_iter. lia.
Qed.

(** An integer divided by a power of two, both of at most [prec]
    digits: the quotient is exact, with the mantissa of the integer. *)
Lemma div_integer_pow2 sx m (n : N) :
  Z.pos (digits2_pos m) <= Z.pos prec ->
  Z.of_N n + 1 <= Z.pos prec ->
  SFdiv (Z.pos prec) emax
    (S754_finite sx (normal m) (Z.pos (digits2_pos m) - Z.pos prec))
    (of_Z (2 ^ Z.of_N n))
  = S754_finite sx (normal m)
      (Z.pos (digits2_pos m) - Z.pos prec - Z.of_N n).
Proof.
  intros Hm Hn. rewrite of_Z_pow2 by exact Hn.
  rewrite div_pow2 by (try apply normal_digits; unfold SpecFloat.emin; lia).
  f_equal. lia.
Qed.

(** Multiplying the quotient by the power of two gives the integer
    back. *)
Lemma mul_quotient_pow2 sx m (n : N) :
  Z.pos (digits2_pos m) <= Z.pos prec ->
  Z.of_N n + 1 <= Z.pos prec ->
  SFmul (Z.pos prec) emax
    (S754_finite sx (normal m)
       (Z.pos (digits2_pos m) - Z.pos prec - Z.of_N n))
    (of_Z (2 ^ Z.of_N n))
  = S754_finite sx (normal m) (Z.pos (digits2_pos m) - Z.pos prec).
Proof.
  intros Hm Hn. rewrite of_Z_pow2 by exact Hn.
  pose proof (N.succ_pos_pred prec) as Hp.
  rewrite mul_pow2 by (try apply normal_digits; lia).
  f_equal. lia.
Qed.

(** An integer times a power of two, both of at most [prec] digits. *)
Lemma mul_integer_pow2 sx m (n : N) :
  Z.pos (digits2_pos m) <= Z.pos prec ->
  Z.of_N n + 1 <= Z.pos prec ->
  SFmul (Z.pos prec) emax
    (S754_finite sx (normal m) (Z.pos (digits2_pos m) - Z.pos prec))
    (of_Z (2 ^ Z.of_N n))
  = S754_finite sx (normal m)
      (Z.pos (digits2_pos m) - Z.pos prec + Z.of_N n).
Proof.
  intros Hm Hn. rewrite of_Z_pow2 by exact Hn.
  pose proof (N.succ_pos_pred prec) as Hp.
  rewrite mul_pow2 by (try apply normal_digits; lia).
  f_equal. lia.
Qed.

End Format.

(** ** The number of digits of an integer *)

Lemma digits2_pos_bounds m :
  2 ^ (Z.pos (digits2_pos m) - 1) <= Z.pos m < 2 ^ Z.pos (digits2_pos m).
Proof.
  induction m as [m IH|m IH|]; cbn [digits2_pos]; [| |simpl; lia].
  - rewrite Pos2Z.inj_succ, (Pos2Z.inj_xI m).
    replace (Z.succ (Z.pos (digits2_pos m)) - 1)
      with (Z.succ (Z.pos (digits2_pos m) - 1)) by lia.
    rewrite !Z.pow_succ_r by lia. lia.
  - rewrite Pos2Z.inj_succ, (Pos2Z.inj_xO m).
    replace (Z.succ (Z.pos (digits2_pos m)) - 1)
      with (Z.succ (Z.pos (digits2_pos m) - 1)) by lia.
    rewrite !Z.pow_succ_r by lia. lia.
Qed.

Lemma digits2_pos_le m (p : positive) :
  Z.pos m < 2 ^ Z.pos p -> Z.pos (digits2_pos m) <= Z.pos p.
Proof.
  intros H. pose proof (digits2_pos_bounds m) as [Hl _].
  destruct (Z_lt_le_dec (Z.pos p) (Z.pos (digits2_pos m))) as [Hlt|]; [|lia].
  assert (2 ^ Z.pos p <= 2 ^ (Z.pos (digits2_pos m) - 1))
    by (apply Z.pow_le_mono_r; lia).
  lia.
Qed.

End FloatFacts.

(* ================================================================== *)
(** * Conversions between fixed point and floating point *)
(* ================================================================== *)

Module FloatConv.
Import CInt CIntFacts MFixedPoint FpSProps FloatFacts.

(** The integer part of a number whose mantissa is an integer shifted
    left, when the exponent does not undo more than the shift. *)
Lemma trunc_shifted s m (n : N) e :
  0 <= e + Z.of_N n ->
  CDouble.trunc (S754_finite s (Pos.shiftl m n) e)
  = Some (if s then - (Z.pos m * 2 ^ (e + Z.of_N n))
          else Z.pos m * 2 ^ (e + Z.of_N n)).
Proof.
  intros He. unfold CDouble.trunc. rewrite pos_shiftl_mul.
  assert (E : match e with
              | Z.neg k => Z.pos m * 2 ^ Z.of_N n / 2 ^ Z.pos k
              | _ => Z.pos m * 2 ^ Z.of_N n * 2 ^ e
              end = Z.pos m * 2 ^ (e + Z.of_N n)).
  { destruct e as [|p|k].
    - rewrite Z.mul_1_r. reflexivity.
    - rewrite <- Z.mul_assoc, <- Z.pow_add_r by lia. do 2 f_equal. lia.
    - replace (Z.of_N n) with ((Z.neg k + Z.of_N n) + Z.pos k) at 1 by lia.
      rewrite Z.pow_add_r, Z.mul_assoc, Z.div_mul by lia.
      reflexivity. }
  now rewrite E.
Qed.

(** The number it denotes, when the exponent undoes the shift and [f]
    more binary places. *)
Lemma to_Q_shifted s m (n f : N) e :
  e + Z.of_N n = - Z.of_N f ->
  exists x,
    CDouble.to_Q (S754_finite s (Pos.shiftl m n) e) = Some x
    /\ (x == (if s then Z.neg m else Z.pos m) # Pos.shiftl 1 f)%Q.
Proof.
  intros He. unfold CDouble.to_Q.
  eexists. split; [reflexivity|].
  assert (Hf := pos_shiftl_mul 1 f). assert (Hn := pos_shiftl_mul m n).
  destruct e as [|p|k]; [|lia|].
  - assert (n = 0%N) by lia. assert (f = 0%N) by lia. subst n f.
    destruct s; unfold Qeq, Qopp, inject_Z; cbn; lia.
  - assert (Hk : Z.pos (2 ^ k) = 2 ^ Z.of_N n * 2 ^ Z.of_N f).
    { rewrite Pos2Z.inj_pow, <- Z.pow_add_r by lia. f_equal. lia. }
    destruct s; unfold Qeq, Qopp; cbn [Qnum Qden];
      rewrite Hn, Hf, Hk; change (Z.neg m) with (- Z.pos m); ring.
Qed.

Section Format.

Variable prec : positive.
Variable emax : Z.
Hypothesis Hemax : 2 * Z.pos prec + 2 <= emax.

Local Abbreviation of_Z z := (binary_normalize (Z.pos prec) emax z 0 false).

(** For an integer [z] and a power of two [2^n], each of at most [prec]
    digits: the quotient [z / 2^n] is formed without rounding error, its
    product by [2^n] is [z] again, and the integer parts of [z] and of
    [z * 2^n] are exact. *)
Lemma quotient_by_scale_exact (z : Z) (n : N) :
  Z.abs z < 2 ^ Z.pos prec ->
  Z.of_N n + 1 <= Z.pos prec ->
  (exists x,
      CDouble.to_Q (SFdiv (Z.pos prec) emax (of_Z z) (of_Z (2 ^ Z.of_N n)))
      = Some x
      /\ (x == z # Pos.shiftl 1 n)%Q)
  /\ SFmul (Z.pos prec) emax
       (SFdiv (Z.pos prec) emax (of_Z z) (of_Z (2 ^ Z.of_N n)))
       (of_Z (2 ^ Z.of_N n))
     = of_Z z
  /\ CDouble.trunc (of_Z z) = Some z
  /\ CDouble.trunc (SFmul (Z.pos prec) emax (of_Z z) (of_Z (2 ^ Z.of_N n)))
     = Some (z * 2 ^ Z.of_N n).
Proof.
  intros Hz Hn.
  destruct z as [|m|m].
  - rewrite (of_Z_pow2 prec emax Hemax n Hn). cbn.
    repeat split; try reflexivity.
    exists 0%Q. split; reflexivity.
  - assert (Hm : Z.pos (digits2_pos m) <= Z.pos prec)
      by (apply digits2_pos_le; lia).
    rewrite (of_Z_pos prec emax Hemax m Hm).
    rewrite (div_integer_pow2 prec emax Hemax false m n Hm Hn).
    rewrite (mul_quotient_pow2 prec emax Hemax false m n Hm Hn).
    rewrite (mul_integer_pow2 prec emax Hemax false m n Hm Hn).
    split; [|split; [reflexivity|split]].
    + apply to_Q_shifted. lia.
    + rewrite trunc_shifted by lia. do 2 f_equal.
      replace (Z.pos (digits2_pos m) - Z.pos prec
               + Z.of_N (Z.to_N (Z.pos prec - Z.pos (digits2_pos m))))
        with 0 by lia. lia.
    + rewrite trunc_shifted by lia. do 3 f_equal. lia.
  - assert (Hm : Z.pos (digits2_pos m) <= Z.pos prec)
      by (apply digits2_pos_le; lia).
    rewrite (of_Z_neg prec emax Hemax m Hm).
    rewrite (div_integer_pow2 prec emax Hemax true m n Hm Hn).
    rewrite (mul_quotient_pow2 prec emax Hemax true m n Hm Hn).
    rewrite (mul_integer_pow2 prec emax Hemax true m n Hm Hn).
    split; [|split; [reflexivity|split]].
    + apply to_Q_shifted. lia.
    + rewrite trunc_shifted by lia.
      replace (Z.pos (digits2_pos m) - Z.pos prec
               + Z.of_N (Z.to_N (Z.pos prec - Z.pos (digits2_pos m))))
        with 0 by lia. f_equal. lia.
    + rewrite trunc_shifted by lia.
      replace (Z.pos (digits2_pos m) - Z.pos prec + Z.of_N n
               + Z.of_N (Z.to_N (Z.pos prec - Z.pos (digits2_pos m))))
        with (Z.of_N n) by lia. f_equal. lia.
Qed.

End Format.

(** ** The scale and the raw value as floating-point numbers *)

Lemma scale_is_pow2 B (F : N) :
  in_range B (2 ^ Z.of_N F) = true ->
  shl (promote B) (cast B 1) F = 2 ^ Z.of_N F.
Proof.
  intros H. pose proof (pow2_pos F) as Hp.
  assert (H1 : in_range B 1 = true).
  { pose proof (zero_in_range B) as H0.
    apply in_range_spec in H0. apply in_range_spec in H.
    apply in_range_spec. lia. }
  rewrite (cast_id B 1 H1), shl_mul, Z.mul_1_l.
  now apply wrap_id, promote_in_range.
Qed.

Lemma in_range_abs B (p : positive) x :
  (bits B <= p)%positive -> in_range B x = true -> Z.abs x < 2 ^ Z.pos p.
Proof.
  intros Hb Hx. apply in_range_spec in Hx. revert Hx.
  unfold min_val, max_val.
  pose proof (modulus_twice B) as H2. pose proof (half_modulus_pos B) as Hh.
  assert (Hm : modulus B <= 2 ^ Z.pos p)
    by (unfold modulus; apply Z.pow_le_mono_r; lia).
  destruct (is_signed B); lia.
Qed.

Lemma scale_digits B (p : positive) (F : N) :
  (bits B <= p)%positive -> in_range B (2 ^ Z.of_N F) = true ->
  Z.of_N F + 1 <= Z.pos p.
Proof.
  intros Hb H. pose proof (in_range_abs B p _ Hb H) as Ha.
  rewrite Z.abs_eq in Ha by (pose proof (pow2_pos F); lia).
  apply Z.pow_lt_mono_r_iff in Ha; lia.
Qed.

(** ** [FpS] *)

(** [ToDouble] is exact: for a [BaseType] of at most 53 bits, the
    [double] it returns denotes [rawVal_ / 2^numFracBits_], the number
    the value stands for, without rounding. *)
Theorem ToDouble_exact B O F (v : FpS B O F) :
  (bits B <= 53)%positive ->
  in_range B (2 ^ Z.of_N F) = true ->
  valid v ->
  exists x, CDouble.to_Q (ToDouble v) = Some x /\ (x == value v)%Q.
Proof.
  intros Hb Hs Hv. unfold ToDouble, CDouble.div, CDouble.of_int, value.
  rewrite (scale_is_pow2 B F Hs).
  apply (quotient_by_scale_exact 53 1024 ltac:(lia) (rawVal_ v) F).
  - now apply (in_range_abs B 53).
  - now apply (scale_digits B 53).
Qed.

Lemma ToDouble_exact_witness :
  exists x,
    CDouble.to_Q (ToDouble (mkFpS (-16972) : fp16)) = Some x
    /\ (x == value (mkFpS (-16972) : fp16))%Q.
Proof.
  apply (ToDouble_exact int16_t int32_t 8%N (mkFpS (-16972)));
    [simpl; lia|reflexivity|reflexivity].
Defined.

(** [ToFloat] is exact for a [BaseType] of at most 24 bits, [fp16]
    among them. *)
Theorem ToFloat_exact B O F (v : FpS B O F) :
  (bits B <= 24)%positive ->
  in_range B (2 ^ Z.of_N F) = true ->
  valid v ->
  exists x, CDouble.to_Q (ToFloat v) = Some x /\ (x == value v)%Q.
Proof.
  intros Hb Hs Hv. unfold ToFloat, CFloat.div, CFloat.of_int, value.
  rewrite (scale_is_pow2 B F Hs).
  apply (quotient_by_scale_exact 24 128 ltac:(lia) (rawVal_ v) F).
  - now apply (in_range_abs B 24).
  - now apply (scale_digits B 24).
Qed.

Lemma ToFloat_exact_witness :
  exists x,
    CDouble.to_Q (ToFloat (mkFpS (-16972) : fp16)) = Some x
    /\ (x == value (mkFpS (-16972) : fp16))%Q.
Proof.
  apply (ToFloat_exact int16_t int32_t 8%N (mkFpS (-16972)));
    [simpl; lia|reflexivity|reflexivity].
Defined.

(** Round trip through [double]: constructing a value from the result
    of [ToDouble] gives the value back. *)
Theorem FpS_double_ToDouble B O F (v : FpS B O F) :
  (bits B <= 53)%positive ->
  in_range B (2 ^ Z.of_N F) = true ->
  valid v ->
  FpS_double B O F (ToDouble v) = Some v.
Proof.
  intros Hb Hs Hv.
  unfold FpS_double, ToDouble, CDouble.to_int, CDouble.mul, CDouble.div,
    CDouble.of_int.
  rewrite (scale_is_pow2 B F Hs).
  destruct (quotient_by_scale_exact 53 1024 ltac:(lia) (rawVal_ v) F)
    as (_ & Hm & Ht & _).
  - now apply (in_range_abs B 53).
  - now apply (scale_digits B 53).
  - unfold CDouble.prec, CDouble.emax. rewrite Hm, Ht, Hv.
    cbn [option_map]. f_equal. now apply FpS_eq.
Qed.

Lemma FpS_double_ToDouble_witness :
  fp32_double (ToDouble (mkFpS (-2147483648) : fp32))
  = Some (mkFpS (-2147483648)).
Proof.
  apply (FpS_double_ToDouble int32_t int64_t 16%N (mkFpS (-2147483648)));
    [simpl; lia|reflexivity|reflexivity].
Defined.

(** The two constructors agree on integers: for an integer [i] whose
    shift is a value of [BaseType], constructing from the [double] [i] is
    constructing from the integer [i]. *)
Theorem FpS_double_of_int B O F (i : Z) :
  (bits B <= 32)%positive ->
  in_range B (2 ^ Z.of_N F) = true ->
  in_range B (i * 2 ^ Z.of_N F) = true ->
  FpS_double B O F (CDouble.of_int i) = Some (FpS_int B O F i).
Proof.
  intros Hb Hs Hi. pose proof (pow2_pos F) as Hp.
  assert (Hb53 : (bits B <= 53)%positive) by lia.
  unfold FpS_double, CDouble.to_int, CDouble.mul, CDouble.of_int.
  rewrite (scale_is_pow2 B F Hs).
  destruct (quotient_by_scale_exact 53 1024 ltac:(lia) i F)
    as (_ & _ & _ & Ht).
  - pose proof (in_range_abs B 53 _ Hb53 Hi) as Ha.
    rewrite Z.abs_mul, (Z.abs_eq (2 ^ Z.of_N F)) in Ha by lia. nia.
  - now apply (scale_digits B 53).
  - unfold CDouble.prec, CDouble.emax. rewrite Ht, Hi.
    cbn [option_map]. f_equal. apply FpS_eq. cbn [rawVal_].
    rewrite raw_FpS_int by now left. now rewrite wrap_id.
Qed.

Lemma FpS_double_of_int_witness :
  fp16_double (CDouble.of_int (-128)) = Some (fp16_int (-128)).
Proof.
  apply (FpS_double_of_int int16_t int32_t 8%N (-128));
    [simpl; lia|reflexivity|reflexivity].
Defined.

(** ** [Fp32s] *)

Lemma Fp32s_scale (n : N) :
  (n <= 30)%N -> shl_masked int32_t 1 n = 2 ^ Z.of_N n.
Proof.
  intros Hn. rewrite shl_masked_mul, shift_count_small, Z.mul_1_l
    by (simpl; lia).
  apply wrap_id, in_range_spec.
  change (min_val int32_t) with (-2147483648).
  change (max_val int32_t) with (2 ^ 31 - 1).
  pose proof (pow2_pos n).
  assert (2 ^ Z.of_N n < 2 ^ 31) by (apply Z.pow_lt_mono_r; lia).
  lia.
Qed.

(** The conversion of an [Fp32s] to [double] is exact, and constructing
    from its result with the same scale gives the object back; the
    constructor from a [double] agrees with the one from an integer on
    integers whose shift is a value of [int32_t]. *)
Theorem Fp32s_double_conversions (storage this : Fp.Fp32s) (i : Z) (qin : N) :
  (in_range int32_t (Fp.rawVal this) = true -> (Fp.q this <= 30)%N ->
   (exists x, CDouble.to_Q (Fp.to_double this) = Some x
              /\ (x == Fp.rawVal this # Pos.shiftl 1 (Fp.q this))%Q)
   /\ Fp.Fp32s_double storage (Fp.to_double this) (Fp.q this) = Some this)
  /\ (in_range int32_t (i * 2 ^ Z.of_N qin) = true -> (qin <= 30)%N ->
      Fp.Fp32s_double storage (CDouble.of_int i) qin
      = Some (Fp.Fp32s_int storage i qin)).
Proof.
  split.
  - intros Hr Hq.
    unfold Fp.to_double, Fp.Fp32s_double, CDouble.to_int, CDouble.mul,
      CDouble.div, CDouble.of_int.
    rewrite (Fp32s_scale _ Hq).
    destruct (quotient_by_scale_exact 53 1024 ltac:(lia)
                (Fp.rawVal this) (Fp.q this))
      as (Hx & Hm & Ht & _).
    + apply (in_range_abs int32_t 53); [simpl; lia|exact Hr].
    + lia.
    + split; [exact Hx|].
      unfold CDouble.prec, CDouble.emax. rewrite Hm, Ht, Hr.
      now destruct this.
  - intros Hr Hq. pose proof (pow2_pos qin) as Hp.
    unfold Fp.Fp32s_double, CDouble.to_int, CDouble.mul, CDouble.of_int.
    rewrite (Fp32s_scale _ Hq).
    destruct (quotient_by_scale_exact 53 1024 ltac:(lia) i qin)
      as (_ & _ & _ & Ht).
    + pose proof (in_range_abs int32_t 53 _ ltac:(simpl; lia) Hr) as Ha.
      rewrite Z.abs_mul, (Z.abs_eq (2 ^ Z.of_N qin)) in Ha by lia. nia.
    + lia.
    + unfold CDouble.prec, CDouble.emax. rewrite Ht, Hr.
      unfold Fp.Fp32s_int, cast. cbn [Fp.rawVal Fp.q].
      rewrite shl_masked_mul, shift_count_small by (simpl; lia).
      now rewrite wrap_wrap, wrap_id.
Qed.

(** The conversion of an [Fp32s] to [float] is exact when the raw
    value has at most 24 bits and the scale is below 24. *)
Theorem Fp32s_to_float_exact (this : Fp.Fp32s) :
  Z.abs (Fp.rawVal this) < 2 ^ 24 -> (Fp.q this <= 23)%N ->
  exists x, CDouble.to_Q (Fp.to_float this) = Some x
            /\ (x == Fp.rawVal this # Pos.shiftl 1 (Fp.q this))%Q.
Proof.
  intros Hr Hq. unfold Fp.to_float, CFloat.div, CFloat.of_int.
  rewrite (Fp32s_scale (Fp.q this)) by lia.
  apply (quotient_by_scale_exact 24 128 ltac:(lia)
           (Fp.rawVal this) (Fp.q this)); [exact Hr|lia].
Qed.

Lemma Fp32s_to_float_exact_witness :
  exists x, CDouble.to_Q (Fp.to_float (Fp.mkFp32s (-16972) 8)) = Some x
            /\ (x == -16972 # Pos.shiftl 1 8)%Q.
Proof.
  apply (Fp32s_to_float_exact (Fp.mkFp32s (-16972) 8));
    [reflexivity|vm_compute; discriminate].
Defined.

Lemma Fp32s_double_conversions_witness :
  Fp.Fp32s_double (Fp.mkFp32s 0 0) (Fp.to_double (Fp.mkFp32s (-16972) 8)) 8
  = Some (Fp.mkFp32s (-16972) 8)
  /\ Fp.Fp32s_double (Fp.mkFp32s 0 0) (CDouble.of_int (-67)) 8
     = Some (Fp.Fp32s_int (Fp.mkFp32s 0 0) (-67) 8).
Proof.
  destruct (Fp32s_double_conversions (Fp.mkFp32s 0 0)
              (Fp.mkFp32s (-16972) 8) (-67) 8) as [H1 H2].
  split.
  - apply H1; [reflexivity|vm_compute; discriminate].
  - apply H2; [reflexivity|vm_compute; discriminate].
Defined.

End FloatConv.

(* ================================================================== *)
(** * Construction from a [double] *)
(* ================================================================== *)

Module FloatQuant.
Import CInt CIntFacts MFixedPoint FpSProps FloatFacts FloatConv.





(** Either zero constructs the value zero. *)
Theorem FpS_double_zero B O F (s : bool) :
  (bits B <= 53)%positive ->
  in_range B (2 ^ Z.of_N F) = true ->
  FpS_double B O F (S754_zero s) = Some (mkFpS 0).
Proof.
  intros Hb Hs. pose proof (scale_digits B 53 F Hb Hs) as HF.
  unfold FpS_double, CDouble.mul, CDouble.of_int, CDouble.prec, CDouble.emax.
  rewrite (scale_is_pow2 B F Hs), (of_Z_pow2 53 1024 ltac:(lia) F HF).
  cbn [SFmul]. unfold CDouble.to_int. cbn [CDouble.trunc].
  now rewrite zero_in_range.
Qed.

Lemma FpS_double_zero_witness :
  fp32_double (S754_zero true) = Some (mkFpS 0).
Proof.
  apply (FpS_double_zero int32_t int64_t 16%N true); [simpl; lia|reflexivity].
Defined.

End FloatQuant.
